(** * Joykado: joystick_to_keyboard.py

    A shallow embedding of the joystick-to-keyboard mapper and the proofs of
    its key-state properties.

    The program keeps one global set, [pressed_keys], and talks to the outside
    through three channels: the pynput keyboard controller, the xdotool
    subprocess and [print].  The embedding threads a [World] holding the set,
    the log of injector calls and the printed lines through a state monad
    with exceptions, so every function below reads like its Python source. *)

From Stdlib Require Import Floats.
From stdpp Require Import gmap strings list.

Open Scope string_scope.
Open Scope list_scope.

(* stdpp's solvers clear hypotheses by name, which Rocq 9 reports. *)
#[local] Set Warnings "-clear-no-such-hyp".

(** ** Data *)

(** The arguments [keyboard.press] and [keyboard.release] receive: a member of
    pynput's [Key] enumeration or a plain string. *)
Inductive PynputKey :=
| Key_up
| Key_down
| Key_left
| Key_right
| Key_enter
| KeyChar (c : string).

(** One call to the key injector, whichever backend is in use. *)
Inductive InjCall :=
| keyboard_press (k : PynputKey)
| keyboard_release (k : PynputKey)
| subprocess_run (argv : list string).

#[global] Instance PynputKey_eq_dec : EqDecision PynputKey.
Proof. solve_decision. Defined.

#[global] Instance InjCall_eq_dec : EqDecision InjCall.
Proof. solve_decision. Defined.

(** Where a raised exception sits in Python's hierarchy: under [Exception],
    or beside it under [BaseException] alone, as [KeyboardInterrupt] (Ctrl+C)
    and the few others ([SystemExit], ...) do. *)
Inductive ExnClass :=
| Exception
| KeyboardInterrupt
| OtherBaseException.

(** A raised Python exception: its class and its text ([str(e)]). *)
Record Exn := mkExn {
  exn_class : ExnClass;
  exn_text : string
}.

(** [isinstance(e, Exception)], what [except Exception] tests. *)
Definition isinstance_Exception (e : Exn) : bool :=
  match exn_class e with
  | Exception => true
  | _ => false
  end.

(** [isinstance(e, KeyboardInterrupt)], what [except KeyboardInterrupt]
    tests. *)
Definition isinstance_KeyboardInterrupt (e : Exn) : bool :=
  match exn_class e with
  | KeyboardInterrupt => true
  | _ => false
  end.

(** The mutable state of the process as far as the mapper is concerned:
    - [pressed_keys] is the global set of line 72;
    - [injected] logs every call made to the injector, oldest first, whether or
      not the call raised;
    - [stdout] collects the lines printed by the functions modelled here. *)
Record World := mkWorld {
  pressed_keys : gset string;
  injected : list InjCall;
  stdout : list string
}.

(** The state at line 72, before any event: nothing held, nothing injected. *)
Definition initial_world : World := mkWorld ∅ [] [].

(** The events [pygame.event.get()] hands to the main loop. *)
Inductive Event :=
| QUIT
| JOYHATMOTION (value : Z * Z)
| JOYAXISMOTION (axis : Z) (value : float)
| JOYBUTTONDOWN (button : Z)
| JOYBUTTONUP (button : Z)
| OTHEREVENT.

(** ** The monad: state with exceptions

    A Python call either returns a value or raises; in both cases the
    mutations it made so far stay. *)
Inductive Outcome (A : Type) :=
| Returned (a : A)
| Raised (e : Exn).
Arguments Returned {A} a.
Arguments Raised {A} e.

Definition Py (A : Type) : Type := World → Outcome A * World.

#[global] Instance Py_ret : MRet Py := λ A (a : A) w, (Returned a, w).

#[global] Instance Py_bind : MBind Py := λ A B (f : A → Py B) (m : Py A) w,
  match m w with
  | (Returned a, w1) => f a w1
  | (Raised e, w1) => (Raised e, w1)
  end.

(** [try: body except <class> as e: handler(e)]: the handler runs for the
    exceptions the clause names ([caught]); any other goes on to the caller. *)
Definition try_except {A} (caught : Exn → bool) (body : Py A)
    (handler : Exn → Py A) : Py A := fun w =>
  match body w with
  | (Returned a, w1) => (Returned a, w1)
  | (Raised e, w1) => if caught e then handler e w1 else (Raised e, w1)
  end.

(** [try: body finally: cleanup]: the cleanup always runs; an exception of the
    body is raised again after it unless the cleanup raises itself. *)
Definition try_finally {A} (body : Py A) (cleanup : Py unit) : Py A := fun w =>
  match body w with
  | (r, w1) =>
      match cleanup w1 with
      | (Returned _, w2) => (r, w2)
      | (Raised e, w2) => (Raised e, w2)
      end
  end.

(** [for x in xs: body(x)] *)
Fixpoint for_each {A} (body : A → Py unit) (xs : list A) : Py unit :=
  match xs with
  | [] => mret tt
  | x :: rest => body x;; for_each body rest
  end.

(** The call returned (no exception escaped it). *)
Definition returns {A} (m : Py A) (w : World) : Prop :=
  ∃ a, (m w).1 = Returned a.

(** The state a call leaves behind, returned or raised. *)
Definition after {A} (m : Py A) (w : World) : World := (m w).2.

(** Primitive effects. *)
Definition get_pressed_keys : Py (gset string) := fun w =>
  (Returned (pressed_keys w), w).

Definition pressed_keys_add (key : string) : Py unit := fun w =>
  (Returned tt, mkWorld ({[key]} ∪ pressed_keys w) (injected w) (stdout w)).

(** [pressed_keys.remove(key)] raises [KeyError] on an absent key. *)
Definition pressed_keys_remove (key : string) : Py unit := fun w =>
  if decide (key ∈ pressed_keys w) then
    (Returned tt, mkWorld (pressed_keys w ∖ {[key]}) (injected w) (stdout w))
  else (Raised (mkExn Exception key), w).

Definition print (line : string) : Py unit := fun w =>
  (Returned tt, mkWorld (pressed_keys w) (injected w) (stdout w ++ [line])).

(** Two injectors to run the program on: one whose calls all return, one
    whose calls all raise an [Exception]. *)
Definition never_raises : list InjCall → InjCall → option Exn :=
  λ _ _, None.

Definition always_raises : list InjCall → InjCall → option Exn :=
  λ _ _, Some (mkExn Exception "boom").

(** A relation between the state before and the state after holds for every
    run of [m], returned or raised. *)
Definition steps {A} (R : relation World) (m : Py A) : Prop :=
  ∀ w, R w (after m w).

(** ** The program *)

(** Lines 62-69. *)
Definition BUTTON_MAPPING : gmap Z string :=
  <[0%Z := "w"]> (<[1%Z := "s"]> (<[2%Z := "a"]> (<[3%Z := "d"]>
  (<[4%Z := "enter"]> (<[5%Z := "enter"]> ∅))))).

(** [deadzone = 0.3] of line 162: the binary64 number nearest to 3/10. *)
Definition deadzone : float := 0x1.3333333333333p-2%float.

(** The line feed inside two of the printed messages. *)
Definition newline : string :=
  String (Ascii.Ascii false true false true false false false false) "".

Section Mapper.

(** Which backend the import at lines 45-52 selected. *)
Variable USE_PYNPUT : bool.

(** The behaviour of the injector, outside the program: given the calls made
    before and the call made now, [None] when the call returns and [Some e]
    when it raises [e], an error of the backend or a Ctrl+C delivered during
    the call.  It stands for pynput's controller and for
    [subprocess.run], which raises when xdotool cannot be started and returns
    whatever the exit status otherwise ([check] is not set). *)
Variable injector : list InjCall → InjCall → option Exn.

Definition inject (c : InjCall) : Py unit := fun w =>
  let w1 := mkWorld (pressed_keys w) (injected w ++ [c]) (stdout w) in
  match injector (injected w) c with
  | None => (Returned tt, w1)
  | Some e => (Raised e, w1)
  end.

(** Lines 87-98: [Key.up if Key.up else 'w'] is [Key.up], an enumeration
    member being true. *)
Definition press_target (key : string) : PynputKey :=
  if decide (key = "w") then Key_up
  else if decide (key = "s") then Key_down
  else if decide (key = "a") then Key_left
  else if decide (key = "d") then Key_right
  else if decide (key = "enter") then Key_enter
  else KeyChar key.

(** Lines 125-134. *)
Definition release_target (key : string) : PynputKey :=
  if decide (key = "w") then Key_up
  else if decide (key = "s") then Key_down
  else if decide (key = "a") then Key_left
  else if decide (key = "d") then Key_right
  else KeyChar key.

(** Lines 82-103, the part of [press_key] after the early return. *)
Definition press_key_emit (key : string) : Py unit :=
  (if decide (key ≠ "enter") then pressed_keys_add key else mret tt);;
  if USE_PYNPUT then
    try_except isinstance_Exception
      (inject (keyboard_press (press_target key)))
      (λ e, print ("Error pressing key " +:+ key +:+ ": " +:+ exn_text e))
  else
    inject (subprocess_run ["xdotool"; "keydown"; key]).

(** Lines 74-103. *)
Definition press_key (key : string) : Py unit :=
  held ← get_pressed_keys;
  if decide (key = "enter") then press_key_emit key
  else if decide (key ∈ held) then mret tt
  else press_key_emit key.

(** Lines 105-139. *)
Definition release_key (key : string) : Py unit :=
  if decide (key = "enter") then
    if USE_PYNPUT then
      try_except isinstance_Exception
        (inject (keyboard_release Key_enter))
        (λ e, print ("Error releasing enter: " +:+ exn_text e))
    else
      inject (subprocess_run ["xdotool"; "keyup"; "Return"])
  else
    held ← get_pressed_keys;
    if decide (key ∉ held) then mret tt
    else
      pressed_keys_remove key;;
      if USE_PYNPUT then
        try_except isinstance_Exception
          (inject (keyboard_release (release_target key)))
          (λ e,
             print ("Error releasing key " +:+ key +:+ ": " +:+ exn_text e))
      else
        inject (subprocess_run ["xdotool"; "keyup"; key]).

(** Lines 141-158. *)
Definition process_hat (hat_value : Z * Z) : Py unit :=
  let '(x, y) := hat_value in
  for_each release_key ["w"; "s"; "a"; "d"];;
  (if decide (y = 1%Z) then press_key "w"
   else if decide (y = (-1)%Z) then press_key "s"
   else mret tt);;
  if decide (x = (-1)%Z) then press_key "a"
  else if decide (x = 1%Z) then press_key "d"
  else mret tt.

(** Lines 160-187.  [value > deadzone] is [deadzone < value]; the integer [0]
    assigned at line 165 compares as the float zero. *)
Definition process_axis (axis : Z) (value : float) : Py unit :=
  let value :=
    if PrimFloat.ltb (PrimFloat.abs value) deadzone then PrimFloat.zero
    else value in
  if decide (axis = 1%Z) then
    if PrimFloat.ltb value (PrimFloat.opp deadzone) then
      press_key "w";; release_key "s"
    else if PrimFloat.ltb deadzone value then
      press_key "s";; release_key "w"
    else
      release_key "w";; release_key "s"
  else if decide (axis = 0%Z) then
    if PrimFloat.ltb value (PrimFloat.opp deadzone) then
      press_key "a";; release_key "d"
    else if PrimFloat.ltb deadzone value then
      press_key "d";; release_key "a"
    else
      release_key "a";; release_key "d"
  else mret tt.

(** Lines 189-202. *)
Definition process_button (button : Z) (pressed : bool) : Py unit :=
  match BUTTON_MAPPING !! button with
  | Some key =>
      if pressed then
        if decide (key = "enter") then
          press_key "enter";; release_key "enter"
        else press_key key
      else
        if decide (key ≠ "enter") then release_key key
        else mret tt
  | None => mret tt
  end.

(** Lines 216-231, the body of the event loop; [QUIT] only clears [running]. *)
Definition dispatch (event : Event) : Py unit :=
  match event with
  | QUIT => mret tt
  | JOYHATMOTION value => process_hat value
  | JOYAXISMOTION axis value => process_axis axis value
  | JOYBUTTONDOWN button => process_button button true
  | JOYBUTTONUP button => process_button button false
  | OTHEREVENT => mret tt
  end.

(** Line 215: one batch of polled events. *)
Definition process_events (events : list Event) : Py unit :=
  for_each dispatch events.

(** Lines 239-240: release every key held when the loop ends.  [set_order]
    is the order in which Python iterates over the set. *)
Definition drain (set_order : gset string → list string) : Py unit :=
  held ← get_pressed_keys;
  for_each release_key (set_order held).

Definition is_quit (event : Event) : bool :=
  match event with QUIT => true | _ => false end.

(** Lines 214-233.  [batches] are the results of the calls of
    [pygame.event.get()] that return, and [ending] is what the poll after the
    last of them raises (Ctrl+C while the loop waits in [pygame.event.get()]
    or [clock.tick], or an error of pygame); a batch with a [QUIT] is
    processed to its end and stops the loop before that.  A Ctrl+C delivered
    inside an injector call is a raise of the injector; one delivered
    between two other statements of a translator has no counterpart here. *)
Fixpoint poll_loop (batches : list (list Event)) (ending : Exn) : Py unit :=
  match batches with
  | [] => λ w, (Raised ending, w)
  | events :: rest =>
      process_events events;;
      if existsb is_quit events then mret tt else poll_loop rest ending
  end.

(** Lines 204-243; the pygame clock and [pygame.quit()] touch neither the
    key set nor the injector. *)
Definition main (set_order : gset string → list string)
    (batches : list (list Event)) (ending : Exn) : Py unit :=
  print "Starting joystick listener...";;
  print "Move your joystick/use buttons to control the game.";;
  print ("Press Ctrl+C to stop." +:+ newline);;
  try_finally
    (try_except isinstance_KeyboardInterrupt
       (poll_loop batches ending)
       (λ _, print (newline +:+ "Stopping...")))
    (drain set_order;; print "Joystick listener stopped.").

(** The states the event loop can be in: whatever a run of events from the
    initial state leaves, also when an exception cut the run short. *)
Definition reachable (w : World) : Prop :=
  ∃ events, w = after (process_events events) initial_world.

(** ** Vocabulary of the statements *)

(** The injector call [press_key key] makes when it makes one. *)
Definition press_call (key : string) : InjCall :=
  if USE_PYNPUT then keyboard_press (press_target key)
  else subprocess_run ["xdotool"; "keydown"; key].

(** The injector call [release_key key] makes when it makes one. *)
Definition release_call (key : string) : InjCall :=
  if decide (key = "enter") then
    if USE_PYNPUT then keyboard_release Key_enter
    else subprocess_run ["xdotool"; "keyup"; "Return"]
  else
    if USE_PYNPUT then keyboard_release (release_target key)
    else subprocess_run ["xdotool"; "keyup"; key].

(** No exception of the injector can escape [press_key] and [release_key]:
    whatever the injector raises, it raises under pynput, where the call sits
    in a [try], and it is an instance of [Exception], which the [except]
    clause catches.  (An injector that never raises is a case of it.) *)
Definition contained : Prop :=
  ∀ history c e, injector history c = Some e →
    USE_PYNPUT = true ∧ isinstance_Exception e = true.

(** [w'] differs from [w] at most in the keys of [keys]: every other key is
    held after iff it was before, and the injector calls added are presses
    and releases of keys of [keys]. *)
Definition touches (keys : list string) (w w' : World) : Prop :=
  (∀ k, k ∉ keys → k ∈ pressed_keys w' ↔ k ∈ pressed_keys w) ∧
  ∃ new, injected w' = injected w ++ new ∧
         ∀ c, c ∈ new → ∃ k, k ∈ keys ∧ (c = press_call k ∨ c = release_call k).

(** The keys an axis drives: vertical 'w'/'s', horizontal 'a'/'d', and none
    for any other axis index. *)
Definition axis_keys (axis : Z) : list string :=
  if decide (axis = 1%Z) then ["w"; "s"]
  else if decide (axis = 0%Z) then ["a"; "d"]
  else [].

(** [P] survives every run of [m]. *)
Definition preserves {A} (P : World → Prop) (m : Py A) : Prop :=
  steps (λ w w', P w → P w') m.

(** Claim C1 as the specification words it: a press whose injector call
    raises leaves [key] out of [pressed_keys] and the set as it was. *)
Definition failed_press_rolled_back (key : string) (w : World) : Prop :=
  (key = "enter" ∨ key ∉ pressed_keys w) →
  is_Some (injector (injected w) (press_call key)) →
  (key ∉ pressed_keys (after (press_key key) w)) ∧
  pressed_keys (after (press_key key) w) = pressed_keys w.

(** Claim C2 as the specification words it: releasing a key that is not held
    does nothing at all. *)
Definition unheld_release_is_noop (key : string) (w : World) : Prop :=
  key ∉ pressed_keys w → release_key key w = (Returned tt, w).

(** The keys a hat reading presses at lines 150-158, in the order of the
    presses: the vertical one first. *)
Definition hat_presses (x y : Z) : list string :=
  (if decide (y = 1%Z) then ["w"]
   else if decide (y = (-1)%Z) then ["s"] else []) ++
  (if decide (x = (-1)%Z) then ["a"]
   else if decide (x = 1%Z) then ["d"] else []).

(** Reading the injector log for one key, from a state in which the key is
    held or not: a press of a held key or a release of a key that is not held
    is a fault ([None]); otherwise the result says whether the key is held
    at the end of the log.  Calls of other keys are skipped. *)
Fixpoint replay (key : string) (held : bool) (log : list InjCall)
    : option bool :=
  match log with
  | [] => Some held
  | c :: rest =>
      if decide (c = press_call key) then
        if held then None else replay key true rest
      else if decide (c = release_call key) then
        if held then replay key false rest else None
      else replay key held rest
  end.

(** The injector log and the key set tell the same story: for each
    directional key the log replays without a fault from "not held" and ends
    held exactly when the key is in [pressed_keys]. *)
Definition log_mirrors_keys (w : World) : Prop :=
  ∀ key, key ∈ ["w"; "s"; "a"; "d"] →
    replay key false (injected w) = Some (bool_decide (key ∈ pressed_keys w)).

(** What one event does to the key set, as a function of the set alone: the
    set [dispatch] leaves when no exception escapes it. *)
Definition key_step (event : Event) (held : gset string) : gset string :=
  match event with
  | JOYHATMOTION (x, y) =>
      (held ∖ {["w"; "s"; "a"; "d"]}) ∪ list_to_set (hat_presses x y)
  | JOYAXISMOTION axis v =>
      match axis_keys axis with
      | [low; high] =>
          if PrimFloat.ltb v (PrimFloat.opp deadzone) then
            ({[low]} ∪ held) ∖ {[high]}
          else if PrimFloat.ltb deadzone v then
            ({[high]} ∪ held) ∖ {[low]}
          else held ∖ {[low]} ∖ {[high]}
      | _ => held
      end
  | JOYBUTTONDOWN button =>
      match BUTTON_MAPPING !! button with
      | Some key => if decide (key = "enter") then held else {[key]} ∪ held
      | None => held
      end
  | JOYBUTTONUP button =>
      match BUTTON_MAPPING !! button with
      | Some key => if decide (key = "enter") then held else held ∖ {[key]}
      | None => held
      end
  | QUIT | OTHEREVENT => held
  end.

(** ** Comparing binary64 numbers with the deadzone *)

Lemma compare_cont_swap m1 m2 :
  Pos.compare_cont Eq m2 m1 = CompOpp (Pos.compare_cont Eq m1 m2).
Proof. apply (Pos.compare_antisym m1 m2). Qed.

Lemma SFcompare_Lt_swap a b :
  SFcompare a b = Some Lt → SFcompare b a = Some Gt.
Proof.
  destruct a as [s1|s1| |s1 m1 e1], b as [s2|s2| |s2 m2 e2]; simpl;
    try destruct s1; try destruct s2; try done.
  all: intros H; rewrite (Z.compare_antisym e1 e2), (compare_cont_swap m1 m2).
  all: destruct (e1 ?= e2)%Z; simpl in *; try done.
  all: by destruct (Pos.compare_cont Eq m1 m2).
Qed.

Lemma ltb_asym a b : PrimFloat.ltb a b = true → PrimFloat.ltb b a = false.
Proof.
  rewrite !ltb_spec. unfold SFltb.
  destruct (SFcompare (Prim2SF a) (Prim2SF b)) as [[]|] eqn:E; try done.
  intros _. by rewrite (SFcompare_Lt_swap _ _ E).
Qed.

Lemma deadzone_spec :
  Prim2SF deadzone = S754_finite false 5404319552844595 (-54).
Proof. reflexivity. Qed.

Lemma above_deadzone v :
  PrimFloat.ltb deadzone v = true →
  PrimFloat.ltb (PrimFloat.abs v) deadzone = false ∧
  PrimFloat.ltb v (PrimFloat.opp deadzone) = false.
Proof.
  intros H. split.
  - revert H. rewrite !ltb_spec, abs_spec, deadzone_spec.
    destruct (Prim2SF v) as [s|s| |s m e]; try destruct s; try done.
    unfold SFltb. simpl SFabs.
    destruct (SFcompare _ (S754_finite false m e)) as [[]|] eqn:E; try done.
    intros _. by rewrite (SFcompare_Lt_swap _ _ E).
  - revert H. rewrite !ltb_spec, opp_spec, deadzone_spec.
    destruct (Prim2SF v) as [s|s| |s m e]; try destruct s; done.
Qed.

Lemma below_deadzone v :
  PrimFloat.ltb v (PrimFloat.opp deadzone) = true →
  PrimFloat.ltb (PrimFloat.abs v) deadzone = false.
Proof.
  rewrite !ltb_spec, abs_spec, opp_spec, deadzone_spec.
  destruct (Prim2SF v) as [s|s| |s m e]; try destruct s; try done.
  unfold SFltb, SFcompare, SFabs, SFopp, negb.
  destruct (e ?= -54)%Z; try done.
  by destruct (Pos.compare_cont Eq m _).
Qed.

Lemma zero_in_deadzone :
  PrimFloat.ltb PrimFloat.zero (PrimFloat.opp deadzone) = false ∧
  PrimFloat.ltb deadzone PrimFloat.zero = false.
Proof. split; reflexivity. Qed.

(** ** The monad's laws of motion *)

Lemma returns_mret {A} (a : A) w : returns (mret a : Py A) w.
Proof. by exists a. Qed.

Lemma after_mret {A} (a : A) w : after (mret a : Py A) w = w.
Proof. done. Qed.

(** A sequence returns exactly when both halves do, and then its final state
    is the second half's. *)
Lemma returns_seq {B} (m : Py unit) (k : Py B) w :
  returns (m;; k) w ↔ returns m w ∧ returns k (after m w).
Proof.
  unfold returns, after, mbind, Py_bind.
  destruct (m w) as [[[]|e] w1]; simpl; split.
  - intros H. split; [by exists tt | done].
  - by intros [_ H].
  - intros [a H]. discriminate.
  - intros [[a H] _]. discriminate.
Qed.

Lemma after_seq {B} (m : Py unit) (k : Py B) w :
  returns m w → after (m;; k) w = after k (after m w).
Proof.
  unfold returns, after, mbind, Py_bind.
  destruct (m w) as [[[]|e] w1]; simpl; [done|].
  intros [a H]. discriminate.
Qed.

Lemma noop_after (m : Py unit) w : m w = (Returned tt, w) → after m w = w.
Proof. intros H. unfold after. by rewrite H. Qed.

(** A relation that is reflexive and transitive follows a program through
    its sequences and loops. *)
Section Steps.
Context (R : relation World) `{HR : !PreOrder R}.

Lemma steps_mret {A} (a : A) : steps R (mret a : Py A).
Proof. intros w. reflexivity. Qed.

Lemma steps_bind {A B} (m : Py A) (f : A → Py B) :
  steps R m → (∀ a, steps R (f a)) → steps R (m ≫= f).
Proof.
  intros Hm Hf w. specialize (Hm w). revert Hm.
  unfold after, mbind, Py_bind.
  destruct (m w) as [[a|e] w1] eqn:E; simpl; [|done].
  intros Hm. etrans; [exact Hm|]. apply Hf.
Qed.

Lemma steps_for_each {A} (body : A → Py unit) xs :
  (∀ x, x ∈ xs → steps R (body x)) → steps R (for_each body xs).
Proof.
  induction xs as [|x xs IH]; intros H; simpl.
  - apply steps_mret.
  - apply steps_bind; [apply H; left|].
    intros _. apply IH. intros y Hy. apply H. by right.
Qed.

End Steps.

(** ** press_key and release_key *)

Ltac run_py :=
  unfold press_key, press_key_emit, release_key, press_call, release_call,
    after, returns, mbind, Py_bind, mret, Py_ret, try_except, inject,
    get_pressed_keys, pressed_keys_add, pressed_keys_remove, print;
  simpl.

Ltac split_run :=
  repeat (case_decide; simpl; try done);
  try (case USE_PYNPUT; simpl);
  repeat match goal with
         | |- context [injector ?h ?c] => destruct (injector h c); simpl
         end;
  repeat match goal with
         | |- context [isinstance_Exception ?e] =>
             destruct (isinstance_Exception e); simpl
         end.

(** What [contained] gives at one injector call. *)
Ltac contained_call Hc :=
  revert Hc; unfold contained; case USE_PYNPUT; simpl; intros Hc;
  match goal with
  | |- context [injector ?h ?c] =>
      let e := fresh "e" in
      let He := fresh "He" in
      destruct (injector h c) as [e|] eqn:He; simpl;
      [ destruct (Hc h c e He) as [? Hcaught]; try discriminate;
        rewrite ?Hcaught; simpl
      | ]
  end.

(** Lines 79-80: a held key is not pressed again. *)
Lemma press_key_held k w :
  k ≠ "enter" → k ∈ pressed_keys w → press_key k w = (Returned tt, w).
Proof. intros Hk Hin. run_py. repeat case_decide; done. Qed.

Lemma press_key_fresh k w :
  k = "enter" ∨ k ∉ pressed_keys w → press_key k w = press_key_emit k w.
Proof.
  intros [->|Hk]; unfold press_key, mbind, Py_bind, get_pressed_keys; simpl.
  - done.
  - repeat case_decide; done.
Qed.

(** Lines 118-119: a key that is not held is not released, unless it is
    'enter'. *)
Lemma release_key_unheld k w :
  k ≠ "enter" → k ∉ pressed_keys w → release_key k w = (Returned tt, w).
Proof. intros Hk Hin. run_py. repeat case_decide; done. Qed.

Lemma pressed_after_press k w :
  pressed_keys (after (press_key k) w) =
  if decide (k = "enter") then pressed_keys w else {[k]} ∪ pressed_keys w.
Proof. run_py. split_run; try done; set_solver. Qed.

Lemma pressed_after_release k w :
  pressed_keys (after (release_key k) w) =
  if decide (k = "enter") then pressed_keys w else pressed_keys w ∖ {[k]}.
Proof. run_py. split_run; try done; set_solver. Qed.

Lemma injected_after_press k w :
  injected (after (press_key k) w) =
  injected w ++
    if decide (k ≠ "enter" ∧ k ∈ pressed_keys w) then [] else [press_call k].
Proof.
  run_py. split_run; rewrite ?app_nil_r; try done; naive_solver.
Qed.

Lemma injected_after_release k w :
  injected (after (release_key k) w) =
  injected w ++
    if decide (k = "enter" ∨ k ∈ pressed_keys w) then [release_call k] else [].
Proof.
  run_py. split_run; rewrite ?app_nil_r; try done; naive_solver.
Qed.

(** When the injector raises nothing but what the [except] clauses catch,
    both operations return. *)
Lemma press_key_returns k w : contained → returns (press_key k) w.
Proof.
  intros Hc. run_py.
  repeat (case_decide; simpl; try by eauto).
  all: contained_call Hc; eauto.
Qed.

Lemma release_key_returns k w : contained → returns (release_key k) w.
Proof.
  intros Hc. run_py.
  repeat (case_decide; simpl; try by eauto).
  all: contained_call Hc; eauto.
Qed.

(** ** The key-state tracker *)

(** C1 (amended).  When the injector call of [press_key key] raises, the key
    added at line 83 is not taken out again: [pressed_keys] afterwards is the
    set before plus [key], so a directional key counts as held although no
    press was delivered; for 'enter' the set is unchanged.  The call is in
    the injector log.  With the pynput backend an exception [e] that is an
    instance of [Exception] is caught by line 99, the line
    "Error pressing key <key>: <e>" is printed and [press_key] returns; one
    that is not (Ctrl+C inside the call) passes the [except] clause: it
    leaves [press_key] and nothing is printed. *)
Theorem press_key_failure_keeps_key key w e :
  key = "enter" ∨ key ∉ pressed_keys w →
  injector (injected w) (press_call key) = Some e →
  let w' := after (press_key key) w in
  pressed_keys w' =
    (if decide (key = "enter") then pressed_keys w
     else {[key]} ∪ pressed_keys w) ∧
  (key ≠ "enter" → key ∈ pressed_keys w') ∧
  injected w' = injected w ++ [press_call key] ∧
  (USE_PYNPUT = true → isinstance_Exception e = true →
     press_key key w = (Returned tt, w') ∧
     stdout w' =
       stdout w ++ ["Error pressing key " +:+ key +:+ ": " +:+ exn_text e]) ∧
  (USE_PYNPUT = true → isinstance_Exception e = false →
     press_key key w = (Raised e, w') ∧
     stdout w' = stdout w).
Proof.
  intros Hfresh Hraise w'. unfold w'. clear w'.
  split; [apply pressed_after_press|]. split; [|split; [|split]].
  - intros Hne. rewrite pressed_after_press, decide_False by done.
    set_solver.
  - rewrite injected_after_press, decide_False; [done|].
    intros [Hne Hin]. by destruct Hfresh.
  - intros Hpynput Hcaught. revert Hraise. unfold after, press_call.
    rewrite press_key_fresh by done.
    unfold press_key_emit, mbind, Py_bind, try_except, inject,
      pressed_keys_add, print, mret, Py_ret.
    rewrite Hpynput. intros Hraise.
    case_decide; simpl; by rewrite Hraise, Hcaught.
  - intros Hpynput Hcaught. revert Hraise. unfold after, press_call.
    rewrite press_key_fresh by done.
    unfold press_key_emit, mbind, Py_bind, try_except, inject,
      pressed_keys_add, print, mret, Py_ret.
    rewrite Hpynput. intros Hraise.
    case_decide; simpl; by rewrite Hraise, Hcaught.
Qed.

(** C2 (amended).  Releasing a key other than 'enter' that is not held does
    nothing: no injector call, no change of state.  Releasing 'enter', which
    is never held, always makes one injector call, the release of Enter, and
    leaves [pressed_keys] as it was. *)
Theorem release_key_unheld_or_enter key w :
  key ∉ pressed_keys w →
  (key ≠ "enter" → release_key key w = (Returned tt, w)) ∧
  (key = "enter" →
     injected (after (release_key key) w) = injected w ++ [release_call key] ∧
     pressed_keys (after (release_key key) w) = pressed_keys w).
Proof.
  intros Hout. split.
  - intros Hne. by apply release_key_unheld.
  - intros ->. rewrite injected_after_release, pressed_after_release.
    rewrite !decide_True; [done|done|by left].
Qed.

(** C3.  Pressing a directional key twice in a row: after the first call the
    key is in [pressed_keys], so the second call returns at line 80 with no
    injector call and no change of state, whatever the state before and
    whether or not the first call's injection raised; and when the key was
    not held before, the two calls together make exactly one injector call,
    the press of that key. *)
Theorem press_key_twice key w :
  key ∈ ["w"; "s"; "a"; "d"] →
  let w1 := after (press_key key) w in
  let w2 := after (press_key key) w1 in
  key ∈ pressed_keys w1 ∧
  press_key key w1 = (Returned tt, w1) ∧
  w2 = w1 ∧
  (key ∉ pressed_keys w →
     injected w1 = injected w ++ [press_call key] ∧
     injected w2 = injected w ++ [press_call key]).
Proof.
  intros Hdir w1 w2.
  assert (Hne : key ≠ "enter").
  { intros ->. set_solver. }
  assert (Hin : key ∈ pressed_keys w1).
  { unfold w1. rewrite pressed_after_press, decide_False by done. set_solver. }
  assert (Hnoop : press_key key w1 = (Returned tt, w1)).
  { by apply press_key_held. }
  assert (Hsame : w2 = w1).
  { unfold w2. by apply noop_after. }
  split; [done|]. split; [done|]. split; [done|].
  intros Hout.
  assert (Hone : injected w1 = injected w ++ [press_call key]).
  { unfold w1. rewrite injected_after_press, decide_False; [done|]. tauto. }
  split; [done|]. by rewrite Hsame.
Qed.

(** ** Invariants and frames of the two operations *)

Lemma preserves_preorder (P : World → Prop) : PreOrder (λ w w', P w → P w').
Proof. split; [by intros w|]. intros w1 w2 w3 H12 H23 H. auto. Qed.

Lemma touches_preorder keys : PreOrder (touches keys).
Proof.
  split.
  - intros w. split; [done|]. exists []. rewrite app_nil_r. split; [done|].
    intros c Hc. by apply elem_of_nil in Hc.
  - intros w1 w2 w3 [Hk12 (n12 & Hn12 & Hc12)] [Hk23 (n23 & Hn23 & Hc23)].
    split.
    + intros k Hk. by rewrite Hk23, Hk12.
    + exists (n12 ++ n23). rewrite Hn23, Hn12, app_assoc. split; [done|].
      intros c [Hc|Hc]%elem_of_app; auto.
Qed.

Lemma press_key_touches keys k : k ∈ keys → steps (touches keys) (press_key k).
Proof.
  intros Hk w. split.
  - intros k' Hk'. rewrite pressed_after_press.
    case_decide; [done|]. set_solver.
  - eexists. split; [apply injected_after_press|].
    intros c Hc. case_decide.
    + by apply elem_of_nil in Hc.
    + apply list_elem_of_singleton in Hc as ->. eauto.
Qed.

Lemma release_key_touches keys k :
  k ∈ keys → steps (touches keys) (release_key k).
Proof.
  intros Hk w. split.
  - intros k' Hk'. rewrite pressed_after_release.
    case_decide; [done|]. set_solver.
  - eexists. split; [apply injected_after_release|].
    intros c Hc. case_decide.
    + apply list_elem_of_singleton in Hc as ->. eauto.
    + by apply elem_of_nil in Hc.
Qed.

(** [press_key] adds nothing but its argument, and never 'enter'. *)
Lemma press_key_preserves_subset (keys : gset string) k :
  k = "enter" ∨ k ∈ keys →
  preserves (λ w, pressed_keys w ⊆ keys) (press_key k).
Proof.
  intros Hk w Hw. rewrite pressed_after_press.
  case_decide; [done|]. set_solver.
Qed.

Lemma release_key_preserves_subset (keys : gset string) k :
  preserves (λ w, pressed_keys w ⊆ keys) (release_key k).
Proof.
  intros w Hw. rewrite pressed_after_release.
  case_decide; [done|]. set_solver.
Qed.

Lemma press_key_never_adds_enter k :
  preserves (λ w, "enter" ∉ pressed_keys w) (press_key k).
Proof.
  intros w Hw. rewrite pressed_after_press.
  case_decide; [done|]. set_solver.
Qed.

Lemma release_key_never_adds_enter k :
  preserves (λ w, "enter" ∉ pressed_keys w) (release_key k).
Proof.
  intros w Hw. rewrite pressed_after_release.
  case_decide; [done|]. set_solver.
Qed.

(** Lines 62-69 map buttons to the four directions and 'enter' only. *)
Lemma BUTTON_MAPPING_keys button key :
  BUTTON_MAPPING !! button = Some key →
  key ∈ ["w"; "s"; "a"; "d"; "enter"].
Proof.
  unfold BUTTON_MAPPING. intros H.
  repeat (apply lookup_insert_Some in H as [[_ <-]|[_ H]]; [set_solver|]).
  by rewrite lookup_empty in H.
Qed.

Lemma BUTTON_MAPPING_confirm button :
  button = 4%Z ∨ button = 5%Z → BUTTON_MAPPING !! button = Some "enter".
Proof. by intros [->| ->]. Qed.

(** ** Loops of releases: the hat reset and the drain *)

Lemma pressed_after_release_all ks w :
  "enter" ∉ ks →
  returns (for_each release_key ks) w →
  pressed_keys (after (for_each release_key ks) w) =
  pressed_keys w ∖ list_to_set ks.
Proof.
  revert w. induction ks as [|k ks IH]; intros w Hne Hret; simpl in *.
  - rewrite after_mret. set_solver.
  - apply returns_seq in Hret as [Hk Hks].
    rewrite after_seq, IH by (done || set_solver).
    rewrite pressed_after_release, decide_False by set_solver.
    set_solver.
Qed.

Lemma injected_after_release_all ks w :
  NoDup ks →
  "enter" ∉ ks →
  (∀ k, k ∈ ks → k ∈ pressed_keys w) →
  returns (for_each release_key ks) w →
  injected (after (for_each release_key ks) w) =
  injected w ++ (release_call <$> ks).
Proof.
  revert w. induction ks as [|k ks IH]; intros w Hnd Hne Hin Hret; simpl in *.
  - by rewrite after_mret, app_nil_r.
  - apply returns_seq in Hret as [Hk Hks].
    apply NoDup_cons in Hnd as [Hk_fresh Hnd].
    rewrite after_seq, IH; try done.
    + rewrite injected_after_release, decide_True, <- app_assoc; [done|].
      right. apply Hin. left.
    + set_solver.
    + intros k' Hk'. rewrite pressed_after_release, decide_False by set_solver.
      apply elem_of_difference. split; [apply Hin; by right|].
      intros ->%elem_of_singleton. done.
Qed.

Lemma for_each_returns {A} (body : A → Py unit) xs w :
  (∀ x w', returns (body x) w') → returns (for_each body xs) w.
Proof.
  intros Hbody. revert w. induction xs as [|x xs IH]; intros w; simpl.
  - apply returns_mret.
  - apply returns_seq. split; [apply Hbody|apply IH].
Qed.

(** ** The hat and axis translators *)

Lemma process_hat_returns hat_value w :
  contained → returns (process_hat hat_value) w.
Proof.
  intros Hc. destruct hat_value as [x y]. unfold process_hat.
  apply returns_seq. split.
  { apply for_each_returns. intros k w'. by apply release_key_returns. }
  apply returns_seq. split.
  - repeat case_decide;
      by (apply press_key_returns || apply returns_mret).
  - repeat case_decide;
      by (apply press_key_returns || apply returns_mret).
Qed.

(** C4.  After [process_hat (x, y)] has returned, from any prior state, the
    directional keys held are those the signs of the reading name: 'w' (Up)
    iff y = 1, 's' (Down) iff y = -1, 'a' (Left) iff x = -1, 'd' (Right) iff
    x = 1; so never both of Up and Down, never both of Left and Right.  It
    holds for every integer pair, the readings in {-1, 0, 1} among them. *)
Theorem process_hat_held x y w :
  returns (process_hat (x, y)) w →
  let w' := after (process_hat (x, y)) w in
  ("w" ∈ pressed_keys w' ↔ y = 1%Z) ∧
  ("s" ∈ pressed_keys w' ↔ y = (-1)%Z) ∧
  ("a" ∈ pressed_keys w' ↔ x = (-1)%Z) ∧
  ("d" ∈ pressed_keys w' ↔ x = 1%Z) ∧
  ¬ ("w" ∈ pressed_keys w' ∧ "s" ∈ pressed_keys w') ∧
  ¬ ("a" ∈ pressed_keys w' ∧ "d" ∈ pressed_keys w').
Proof.
  unfold process_hat. intros Hret. cbv zeta.
  apply returns_seq in Hret as [Hreset Hret].
  apply returns_seq in Hret as [Hvert Hhoriz].
  rewrite !after_seq by done.
  pose proof (pressed_after_release_all ["w"; "s"; "a"; "d"] w) as Hclear.
  specialize (Hclear ltac:(set_solver) Hreset).
  set (w1 := after (for_each release_key ["w"; "s"; "a"; "d"]) w) in *.
  clearbody w1. clear Hreset Hvert Hhoriz.
  repeat case_decide; subst;
    rewrite ?after_mret, ?pressed_after_press, ?decide_False by done;
    rewrite Hclear; clear Hclear.
  all: repeat split; try (intros; lia); try (intros; set_solver).
Qed.

(** The three branches of the vertical axis, lines 168-177. *)
Lemma process_axis_up v :
  PrimFloat.ltb v (PrimFloat.opp deadzone) = true →
  process_axis 1 v = (press_key "w";; release_key "s").
Proof.
  intros H. unfold process_axis.
  by rewrite (below_deadzone v H), H.
Qed.

Lemma process_axis_down v :
  PrimFloat.ltb deadzone v = true →
  process_axis 1 v = (press_key "s";; release_key "w").
Proof.
  intros H. unfold process_axis.
  destruct (above_deadzone v H) as [Habs Hneg].
  by rewrite Habs, Hneg, H.
Qed.

Lemma process_axis_neutral v :
  PrimFloat.ltb v (PrimFloat.opp deadzone) = false →
  PrimFloat.ltb deadzone v = false →
  process_axis 1 v = (release_key "w";; release_key "s").
Proof.
  intros Hlo Hhi. unfold process_axis.
  destruct (PrimFloat.ltb (PrimFloat.abs v) deadzone).
  - by destruct zero_in_deadzone as [-> ->].
  - by rewrite Hlo, Hhi.
Qed.

Lemma process_axis_ignored axis v w :
  axis ≠ 0%Z → axis ≠ 1%Z → process_axis axis v w = (Returned tt, w).
Proof. intros H0 H1. unfold process_axis. by rewrite !decide_False. Qed.

(** C5.  After a vertical axis event has returned, from any prior state: a
    value strictly between -0.3 and 0.3 leaves neither 'w' (Up) nor 's'
    (Down) held; a value above 0.3 leaves 's' held and 'w' released; a value
    below -0.3 leaves 'w' held and 's' released.  The comparisons are those
    of binary64 numbers with the constant [deadzone].  The last part says
    that whatever is neither above 0.3 nor below -0.3 (the two bounds
    themselves, a NaN) releases both keys as well, so the three cases cover
    every value. *)
Theorem process_axis_vertical v w :
  returns (process_axis 1 v) w →
  let w' := after (process_axis 1 v) w in
  (PrimFloat.ltb (PrimFloat.opp deadzone) v = true ∧
   PrimFloat.ltb v deadzone = true →
     ("w" ∉ pressed_keys w') ∧ ("s" ∉ pressed_keys w')) ∧
  (PrimFloat.ltb deadzone v = true →
     "s" ∈ pressed_keys w' ∧ ("w" ∉ pressed_keys w')) ∧
  (PrimFloat.ltb v (PrimFloat.opp deadzone) = true →
     "w" ∈ pressed_keys w' ∧ ("s" ∉ pressed_keys w')) ∧
  (PrimFloat.ltb v (PrimFloat.opp deadzone) = false ∧
   PrimFloat.ltb deadzone v = false →
     ("w" ∉ pressed_keys w') ∧ ("s" ∉ pressed_keys w')).
Proof.
  intros Hret w'. unfold w'. clear w'.
  assert (Hneutral :
    PrimFloat.ltb v (PrimFloat.opp deadzone) = false →
    PrimFloat.ltb deadzone v = false →
    ("w" ∉ pressed_keys (after (process_axis 1 v) w)) ∧
    ("s" ∉ pressed_keys (after (process_axis 1 v) w))).
  { intros Hlo Hhi. rewrite process_axis_neutral in * by done.
    apply returns_seq in Hret as [H1 H2]. rewrite after_seq by done.
    rewrite !pressed_after_release, !decide_False by done. set_solver. }
  split; [|split; [|split]].
  - intros [Hlo Hhi]. apply Hneutral; by apply ltb_asym.
  - intros H. rewrite process_axis_down in * by done.
    apply returns_seq in Hret as [H1 H2]. rewrite after_seq by done.
    rewrite pressed_after_release, pressed_after_press, !decide_False by done.
    set_solver.
  - intros H. rewrite process_axis_up in * by done.
    apply returns_seq in Hret as [H1 H2]. rewrite after_seq by done.
    rewrite pressed_after_release, pressed_after_press, !decide_False by done.
    set_solver.
  - intros [Hlo Hhi]. by apply Hneutral.
Qed.

(** ** Relations carried through the translators *)

Section Carried.
Context (R : relation World) `{HR : !PreOrder R}.
Variable keys : list string.
Hypothesis press_steps : ∀ k, k ∈ keys → steps R (press_key k).
Hypothesis release_steps : ∀ k, k ∈ keys → steps R (release_key k).

Lemma process_axis_steps axis v :
  axis_keys axis ⊆ keys → steps R (process_axis axis v).
Proof.
  unfold axis_keys, process_axis. intros Hkeys.
  repeat case_decide; [| |by apply (steps_mret R _)].
  all: repeat case_match.
  all: apply (steps_bind R _); [|intros _].
  all: (apply press_steps || apply release_steps); apply Hkeys; set_solver.
Qed.

Lemma process_hat_steps hat_value :
  ["w"; "s"; "a"; "d"] ⊆ keys → steps R (process_hat hat_value).
Proof.
  intros Hkeys. destruct hat_value as [x y]. unfold process_hat.
  apply (steps_bind R _).
  { apply (steps_for_each R _). intros k Hk. by apply release_steps, Hkeys. }
  intros _. apply (steps_bind R _).
  - repeat case_decide; try by apply (steps_mret R _).
    all: apply press_steps, Hkeys; set_solver.
  - intros _. repeat case_decide; try by apply (steps_mret R _).
    all: apply press_steps, Hkeys; set_solver.
Qed.

Lemma process_button_steps button pressed :
  ["w"; "s"; "a"; "d"; "enter"] ⊆ keys →
  steps R (process_button button pressed).
Proof.
  intros Hkeys. unfold process_button.
  destruct (BUTTON_MAPPING !! button) as [key|] eqn:Hkey;
    [|by apply (steps_mret R _)].
  apply BUTTON_MAPPING_keys, Hkeys in Hkey.
  destruct pressed; repeat case_decide; try by apply (steps_mret R _).
  - apply (steps_bind R _); [|intros _].
    + apply press_steps, Hkeys. set_solver.
    + apply release_steps, Hkeys. set_solver.
  - by apply press_steps.
  - by apply release_steps.
Qed.

Lemma dispatch_steps event :
  ["w"; "s"; "a"; "d"; "enter"] ⊆ keys → steps R (dispatch event).
Proof.
  intros Hkeys. destruct event; simpl; try by apply (steps_mret R _).
  - apply process_hat_steps. set_solver.
  - apply process_axis_steps. unfold axis_keys.
    repeat case_decide; set_solver.
  - by apply process_button_steps.
  - by apply process_button_steps.
Qed.

Lemma process_events_steps events :
  ["w"; "s"; "a"; "d"; "enter"] ⊆ keys → steps R (process_events events).
Proof.
  intros Hkeys. apply (steps_for_each R _).
  intros event _. by apply dispatch_steps.
Qed.
End Carried.

(** No injector call belongs both to a vertical and to a horizontal key. *)
Lemma axis_calls_apart k k' c :
  k ∈ ["w"; "s"] → k' ∈ ["a"; "d"] →
  c = press_call k ∨ c = release_call k →
  c ∈ [press_call k'; release_call k'; press_call k'; release_call k'] →
  False.
Proof.
  unfold press_call, release_call, press_target, release_target.
  rewrite !elem_of_cons, !elem_of_nil.
  intros [->|[->|[]]] [->|[->|[]]]; case USE_PYNPUT; simpl; naive_solver.
Qed.

Lemma calls_of_pair a b c :
  c ∈ [press_call a; release_call a; press_call b; release_call b] →
  ∃ k, k ∈ [a; b] ∧
       c ∈ [press_call k; release_call k; press_call k; release_call k].
Proof.
  rewrite !elem_of_cons, !elem_of_nil.
  intros [->|[->|[->|[->|[]]]]]; [exists a|exists a|exists b|exists b].
  all: rewrite !elem_of_cons; auto.
Qed.

(** C10.  A vertical axis event changes the held state of no key but 'w' and
    's', so 'a' (Left) and 'd' (Right) are held after iff they were before,
    and none of the injector calls it adds is a press or release of 'a' or
    'd'; a horizontal event does the same with the roles exchanged; an event
    of any other axis returns at once, with the state and the injector log as
    they were.  All of it holds whether or not an injector call raised. *)
Theorem process_axis_frame axis v w :
  let w' := after (process_axis axis v) w in
  (axis = 1%Z →
     ("a" ∈ pressed_keys w' ↔ "a" ∈ pressed_keys w) ∧
     ("d" ∈ pressed_keys w' ↔ "d" ∈ pressed_keys w) ∧
     ∃ new, injected w' = injected w ++ new ∧
       ∀ c, c ∈ new →
         c ∉ [press_call "a"; release_call "a";
              press_call "d"; release_call "d"]) ∧
  (axis = 0%Z →
     ("w" ∈ pressed_keys w' ↔ "w" ∈ pressed_keys w) ∧
     ("s" ∈ pressed_keys w' ↔ "s" ∈ pressed_keys w) ∧
     ∃ new, injected w' = injected w ++ new ∧
       ∀ c, c ∈ new →
         c ∉ [press_call "w"; release_call "w";
              press_call "s"; release_call "s"]) ∧
  (axis ≠ 0%Z → axis ≠ 1%Z →
     process_axis axis v w = (Returned tt, w)).
Proof.
  intros w'.
  assert (Hframe : steps (touches (axis_keys axis)) (process_axis axis v)).
  { apply (@process_axis_steps _ (touches_preorder _) (axis_keys axis)).
    - intros k Hk. by apply press_key_touches.
    - intros k Hk. by apply release_key_touches.
    - done. }
  destruct (Hframe w) as [Hkeep (new & Hnew & Hcalls)]. clear Hframe.
  fold w' in Hkeep, Hnew.
  split; [|split].
  - intros ->. change (axis_keys 1) with ["w"; "s"] in *.
    split; [apply Hkeep; by rewrite !elem_of_cons, elem_of_nil; intros [|[|[]]]|].
    split; [apply Hkeep; by rewrite !elem_of_cons, elem_of_nil; intros [|[|[]]]|].
    exists new. split; [done|]. intros c Hc Hbad.
    destruct (Hcalls c Hc) as (k & Hk & Hck).
    destruct (calls_of_pair _ _ _ Hbad) as (k' & Hk' & Hck').
    by apply (axis_calls_apart k k' c).
  - intros ->. change (axis_keys 0) with ["a"; "d"] in *.
    split; [apply Hkeep; by rewrite !elem_of_cons, elem_of_nil; intros [|[|[]]]|].
    split; [apply Hkeep; by rewrite !elem_of_cons, elem_of_nil; intros [|[|[]]]|].
    exists new. split; [done|]. intros c Hc Hbad.
    destruct (Hcalls c Hc) as (k & Hk & Hck).
    destruct (calls_of_pair _ _ _ Hbad) as (k' & Hk' & Hck').
    apply (axis_calls_apart k' k c); [done|done| |].
    + revert Hck'. rewrite !elem_of_cons, elem_of_nil. tauto.
    + destruct Hck as [->| ->]; rewrite !elem_of_cons; auto.
  - apply process_axis_ignored.
Qed.

(** ** The button translator *)

(** C7.  A button mapped to 'enter' (index 4 or 5): on the press transition,
    when [process_button] returns, the injector log has grown by exactly the
    press of Enter followed by the release of Enter and [pressed_keys] is as
    before; on the release transition nothing happens at all. *)
Theorem process_button_confirm button w :
  button = 4%Z ∨ button = 5%Z →
  (returns (process_button button true) w →
     injected (after (process_button button true) w) =
       injected w ++ [press_call "enter"; release_call "enter"] ∧
     pressed_keys (after (process_button button true) w) = pressed_keys w) ∧
  process_button button false w = (Returned tt, w).
Proof.
  intros Hbutton. unfold process_button.
  rewrite (BUTTON_MAPPING_confirm button Hbutton).
  split; [|by case_decide]. rewrite decide_True by done. intros Hret.
  apply returns_seq in Hret as [Hpress Hrelease].
  rewrite after_seq by done.
  rewrite injected_after_release, pressed_after_release.
  rewrite injected_after_press, pressed_after_press.
  repeat case_decide; try naive_solver.
  by rewrite <- app_assoc.
Qed.

(** ** Whole runs of events *)

Lemma process_events_never_add_enter events :
  preserves (λ w, "enter" ∉ pressed_keys w) (process_events events).
Proof.
  apply (@process_events_steps _ (preserves_preorder _)
           ["w"; "s"; "a"; "d"; "enter"]); [| |done].
  - intros k _. apply press_key_never_adds_enter.
  - intros k _. apply release_key_never_adds_enter.
Qed.

(** C6.  Whatever events are processed from the initial state, and wherever
    an exception may stop the run, 'enter' is not in [pressed_keys]: both
    operations on the set leave it out for every argument
    ([press_key_never_adds_enter], [release_key_never_adds_enter]). *)
Theorem enter_never_held events :
  "enter" ∉ pressed_keys (after (process_events events) initial_world).
Proof.
  apply (process_events_never_add_enter events initial_world).
  simpl. apply not_elem_of_empty.
Qed.

(** C9.  Whatever events are processed from the initial state, and wherever
    an exception may stop the run, [pressed_keys] holds directional keys
    only. *)
Theorem held_keys_directional events :
  pressed_keys (after (process_events events) initial_world)
    ⊆ {["w"; "s"; "a"; "d"]}.
Proof.
  pose (inv := λ w, pressed_keys w ⊆ ({["w"; "s"; "a"; "d"]} : gset string)).
  assert (Hrun : preserves inv (process_events events)).
  { apply (@process_events_steps _ (preserves_preorder inv)
             ["w"; "s"; "a"; "d"; "enter"]); [| |done].
    - intros k Hk. apply press_key_preserves_subset.
      revert Hk. rewrite !elem_of_cons, elem_of_nil. set_solver.
    - intros k _. apply release_key_preserves_subset. }
  apply (Hrun initial_world). unfold inv. simpl. set_solver.
Qed.

(** ** The drain at shutdown *)

Lemma reachable_without_enter w : reachable w → "enter" ∉ pressed_keys w.
Proof.
  intros [events ->].
  apply (process_events_never_add_enter events initial_world).
  simpl. apply not_elem_of_empty.
Qed.

Lemma drain_unfold set_order w :
  drain set_order w = for_each release_key (set_order (pressed_keys w)) w.
Proof. done. Qed.

Lemma drain_empty set_order w :
  set_order ∅ = [] → pressed_keys w = ∅ →
  drain set_order w = (Returned tt, w).
Proof. intros Hnil Hw. by rewrite drain_unfold, Hw, Hnil. Qed.

Lemma drain_returns set_order w : contained → returns (drain set_order) w.
Proof.
  intros Hc. unfold returns. rewrite drain_unfold.
  apply for_each_returns. intros k w'. by apply release_key_returns.
Qed.

Lemma process_axis_returns axis v w :
  contained → returns (process_axis axis v) w.
Proof.
  intros Hc. unfold process_axis.
  repeat case_decide; repeat case_match; try apply returns_mret.
  all: apply returns_seq; split;
    by (apply press_key_returns || apply release_key_returns).
Qed.

Lemma process_button_returns button pressed w :
  contained → returns (process_button button pressed) w.
Proof.
  intros Hc. unfold process_button.
  repeat case_match; repeat case_decide; try apply returns_mret.
  all: try (apply returns_seq; split).
  all: by (apply press_key_returns || apply release_key_returns).
Qed.

(** The drain empties a set without 'enter', in whatever order it runs. *)
Lemma drain_clears set_order w :
  (∀ X, set_order X ≡ₚ elements X) →
  "enter" ∉ pressed_keys w →
  returns (drain set_order) w →
  pressed_keys (after (drain set_order) w) = ∅.
Proof.
  intros Horder Henter Hret.
  assert (Hloop : returns (for_each release_key (set_order (pressed_keys w))) w)
    by exact Hret.
  change (after (drain set_order) w)
    with (after (for_each release_key (set_order (pressed_keys w))) w).
  rewrite pressed_after_release_all; [|by rewrite Horder, elem_of_elements|done].
  apply set_eq. intros k.
  rewrite elem_of_difference, elem_of_list_to_set, Horder, elem_of_elements.
  set_solver.
Qed.

(** C8.  For a state the event loop can reach, when the drain returns:
    [pressed_keys] is empty afterwards, and the injector log has grown by one
    release call for each key that was held, in the order of the iteration;
    on an empty set the drain does nothing; and a second drain right after
    the first does nothing.  The iteration order of the set is any
    enumeration of its elements. *)
Theorem drain_releases_all set_order w :
  (∀ X, set_order X ≡ₚ elements X) →
  reachable w →
  returns (drain set_order) w →
  let w' := after (drain set_order) w in
  pressed_keys w' = ∅ ∧
  (∃ new, injected w' = injected w ++ new ∧
          new ≡ₚ release_call <$> elements (pressed_keys w) ∧
          length new = size (pressed_keys w)) ∧
  (pressed_keys w = ∅ → drain set_order w = (Returned tt, w)) ∧
  drain set_order w' = (Returned tt, w').
Proof.
  intros Horder Hreach Hret w'.
  assert (Hnil : set_order ∅ = []).
  { apply Permutation_nil_r. by rewrite Horder, elements_empty. }
  assert (Henter : "enter" ∉ set_order (pressed_keys w)).
  { rewrite Horder, elem_of_elements. by apply reachable_without_enter. }
  assert (Hloop : returns (for_each release_key (set_order (pressed_keys w))) w)
    by exact Hret.
  assert (Hw' : w' = after (for_each release_key (set_order (pressed_keys w))) w)
    by done.
  assert (Hempty : pressed_keys w' = ∅).
  { apply drain_clears; try done. by apply reachable_without_enter. }
  split; [done|]. split; [|split].
  - exists (release_call <$> set_order (pressed_keys w)). split; [|split].
    + rewrite Hw'. apply injected_after_release_all; try done.
      * rewrite Horder. apply NoDup_elements.
      * intros k. by rewrite Horder, elem_of_elements.
    + by rewrite Horder.
    + by rewrite length_fmap, Horder.
  - by apply drain_empty.
  - by apply drain_empty.
Qed.

(** ** The whole program *)

Lemma print_pressed_keys line w :
  pressed_keys (after (print line) w) = pressed_keys w.
Proof. done. Qed.

Lemma poll_loop_never_adds_enter batches ending :
  preserves (λ w, "enter" ∉ pressed_keys w) (poll_loop batches ending).
Proof.
  induction batches as [|events rest IH]; simpl.
  - by intros w.
  - apply (steps_bind _ (HR := preserves_preorder _)).
    + apply process_events_never_add_enter.
    + intros _. destruct (existsb is_quit events); [by intros w|done].
Qed.

(** ** Further properties of the tracker *)

(** X6.  With the pynput backend, when the injector call of [release_key]
    raises an exception [e] that is an instance of [Exception], it is caught
    by line 112 or 135, an error line is printed and the call returns; a key
    other than 'enter' that was held has been removed at line 121 and stays
    removed although no release was delivered. *)
Theorem release_key_failure_drops_key key w e :
  USE_PYNPUT = true →
  key = "enter" ∨ key ∈ pressed_keys w →
  injector (injected w) (release_call key) = Some e →
  isinstance_Exception e = true →
  release_key key w =
    (Returned tt,
     mkWorld
       (if decide (key = "enter") then pressed_keys w
        else pressed_keys w ∖ {[key]})
       (injected w ++ [release_call key])
       (stdout w ++
          [if decide (key = "enter")
           then "Error releasing enter: " +:+ exn_text e
           else "Error releasing key " +:+ key +:+ ": " +:+ exn_text e])).
Proof.
  intros Hpynput Hheld. unfold release_call, release_key.
  rewrite Hpynput. case_decide as Hkey.
  - intros Hraise Hcaught. unfold try_except, inject.
    by rewrite Hraise, Hcaught.
  - destruct Hheld as [|Hin]; [done|]. intros Hraise Hcaught.
    unfold mbind, Py_bind, get_pressed_keys, pressed_keys_remove,
      try_except, inject, print.
    rewrite decide_False by (by intros Hout; apply Hout).
    rewrite decide_True by done. simpl. by rewrite Hraise, Hcaught.
Qed.

(** X7.  With the xdotool backend nothing catches what [subprocess.run]
    raises: the exception leaves [press_key] and [release_key], nothing is
    printed, and the set has already been changed, the key added by a press
    and removed by a release. *)
Theorem xdotool_failure_escapes key w e :
  USE_PYNPUT = false →
  key ≠ "enter" →
  (key ∉ pressed_keys w →
   injector (injected w) (press_call key) = Some e →
   press_key key w =
     (Raised e,
      mkWorld ({[key]} ∪ pressed_keys w)
        (injected w ++ [press_call key]) (stdout w))) ∧
  (key ∈ pressed_keys w →
   injector (injected w) (release_call key) = Some e →
   release_key key w =
     (Raised e,
      mkWorld (pressed_keys w ∖ {[key]})
        (injected w ++ [release_call key]) (stdout w))).
Proof.
  intros Hxdo Hkey. unfold press_call, release_call.
  rewrite Hxdo, decide_False by done. split.
  - intros Hout Hraise. rewrite press_key_fresh by (by right).
    unfold press_key_emit, mbind, Py_bind, pressed_keys_add, inject.
    rewrite Hxdo, decide_True by done. simpl. by rewrite Hraise.
  - intros Hin Hraise.
    unfold release_key, mbind, Py_bind, get_pressed_keys,
      pressed_keys_remove, inject.
    rewrite Hxdo, decide_False by done.
    rewrite decide_False by (by intros Hout; apply Hout).
    rewrite decide_True by done. simpl. by rewrite Hraise.
Qed.

(** X11.  A press followed by the release of the same key, from a state in
    which the key is not held, puts [pressed_keys] back as it was and adds
    exactly the press call and then the release call to the injector log. *)
Theorem press_then_release key w :
  key ≠ "enter" →
  key ∉ pressed_keys w →
  returns (press_key key;; release_key key) w →
  let w' := after (press_key key;; release_key key) w in
  pressed_keys w' = pressed_keys w ∧
  injected w' = injected w ++ [press_call key; release_call key].
Proof.
  intros Hkey Hout Hret w'. unfold w'. clear w'.
  apply returns_seq in Hret as [Hpress Hrelease].
  rewrite after_seq by done.
  rewrite pressed_after_release, injected_after_release.
  rewrite pressed_after_press, injected_after_press.
  rewrite !decide_False by tauto. split; [set_solver|].
  rewrite decide_True by (right; set_solver).
  by rewrite <- app_assoc.
Qed.

(** ** Further properties of the translators *)

(** The three branches of the horizontal axis, lines 178-187. *)
Lemma process_axis_left v :
  PrimFloat.ltb v (PrimFloat.opp deadzone) = true →
  process_axis 0 v = (press_key "a";; release_key "d").
Proof.
  intros H. unfold process_axis.
  by rewrite (below_deadzone v H), H.
Qed.

Lemma process_axis_right v :
  PrimFloat.ltb deadzone v = true →
  process_axis 0 v = (press_key "d";; release_key "a").
Proof.
  intros H. unfold process_axis.
  destruct (above_deadzone v H) as [Habs Hneg].
  by rewrite Habs, Hneg, H.
Qed.

Lemma process_axis_centre v :
  PrimFloat.ltb v (PrimFloat.opp deadzone) = false →
  PrimFloat.ltb deadzone v = false →
  process_axis 0 v = (release_key "a";; release_key "d").
Proof.
  intros Hlo Hhi. unfold process_axis.
  destruct (PrimFloat.ltb (PrimFloat.abs v) deadzone).
  - by destruct zero_in_deadzone as [-> ->].
  - by rewrite Hlo, Hhi.
Qed.

(** X1.  After a horizontal axis event has returned, from any prior state: a
    value below -0.3 leaves 'a' (Left) held and 'd' (Right) released; a value
    above 0.3 leaves 'd' held and 'a' released; every other value (the
    deadzone, the two bounds, a NaN) leaves both released. *)
Theorem process_axis_horizontal v w :
  returns (process_axis 0 v) w →
  let w' := after (process_axis 0 v) w in
  (PrimFloat.ltb v (PrimFloat.opp deadzone) = true →
     "a" ∈ pressed_keys w' ∧ ("d" ∉ pressed_keys w')) ∧
  (PrimFloat.ltb deadzone v = true →
     "d" ∈ pressed_keys w' ∧ ("a" ∉ pressed_keys w')) ∧
  (PrimFloat.ltb v (PrimFloat.opp deadzone) = false ∧
   PrimFloat.ltb deadzone v = false →
     ("a" ∉ pressed_keys w') ∧ ("d" ∉ pressed_keys w')).
Proof.
  intros Hret w'. unfold w'. clear w'. split; [|split].
  - intros H. rewrite process_axis_left in * by done.
    apply returns_seq in Hret as [H1 H2]. rewrite after_seq by done.
    rewrite pressed_after_release, pressed_after_press, !decide_False by done.
    set_solver.
  - intros H. rewrite process_axis_right in * by done.
    apply returns_seq in Hret as [H1 H2]. rewrite after_seq by done.
    rewrite pressed_after_release, pressed_after_press, !decide_False by done.
    set_solver.
  - intros [Hlo Hhi]. rewrite process_axis_centre in * by done.
    apply returns_seq in Hret as [H1 H2]. rewrite after_seq by done.
    rewrite !pressed_after_release, !decide_False by done. set_solver.
Qed.

(** A pair of operations that has run once does nothing when run again. *)
Lemma press_release_settled a b w :
  a ≠ "enter" → b ≠ "enter" → a ≠ b →
  returns (press_key a;; release_key b) w →
  let w' := after (press_key a;; release_key b) w in
  (press_key a;; release_key b) w' = (Returned tt, w').
Proof.
  intros Ha Hb Hab Hret w'.
  assert (Hin : a ∈ pressed_keys w' ∧ (b ∉ pressed_keys w')).
  { unfold w'. apply returns_seq in Hret as [H1 H2].
    rewrite after_seq by done.
    rewrite pressed_after_release, pressed_after_press, !decide_False by done.
    set_solver. }
  destruct Hin as [Hin Hout]. clearbody w'.
  unfold mbind, Py_bind. rewrite press_key_held by done.
  by apply release_key_unheld.
Qed.

Lemma release_release_settled a b w :
  a ≠ "enter" → b ≠ "enter" →
  returns (release_key a;; release_key b) w →
  let w' := after (release_key a;; release_key b) w in
  (release_key a;; release_key b) w' = (Returned tt, w').
Proof.
  intros Ha Hb Hret w'.
  assert (Hout : (a ∉ pressed_keys w') ∧ (b ∉ pressed_keys w')).
  { unfold w'. apply returns_seq in Hret as [H1 H2].
    rewrite after_seq by done.
    rewrite !pressed_after_release, !decide_False by done.
    set_solver. }
  destruct Hout as [Hout_a Hout_b]. clearbody w'.
  unfold mbind, Py_bind. rewrite release_key_unheld by done.
  by apply release_key_unheld.
Qed.

(** X2.  An axis event that has returned leaves a state in which the same
    event is silent: processed again, it makes no injector call, prints
    nothing and changes nothing, for every axis index and every value. *)
Theorem process_axis_settled axis v w :
  returns (process_axis axis v) w →
  let w' := after (process_axis axis v) w in
  process_axis axis v w' = (Returned tt, w').
Proof.
  unfold process_axis.
  repeat case_decide; repeat case_match; intros Hret; try done.
  all: by (apply press_release_settled || apply release_release_settled).
Qed.

(** X4.  A button mapped to a directional key: its press transition leaves
    [pressed_keys] as the set before plus that key, its release transition
    as the set before minus that key, whether or not the injection raised. *)
Theorem process_button_directional button key w :
  BUTTON_MAPPING !! button = Some key →
  key ≠ "enter" →
  pressed_keys (after (process_button button true) w) =
    {[key]} ∪ pressed_keys w ∧
  pressed_keys (after (process_button button false) w) =
    pressed_keys w ∖ {[key]}.
Proof.
  intros Hmap Hkey. unfold process_button. rewrite Hmap.
  rewrite decide_False, decide_True by done.
  by rewrite pressed_after_press, pressed_after_release, !decide_False.
Qed.

(** X5.  A button outside the table of lines 62-69, that is any index below
    0 or above 5, does nothing on either transition. *)
Theorem process_button_unmapped button pressed w :
  (button < 0 ∨ 5 < button)%Z →
  process_button button pressed w = (Returned tt, w).
Proof.
  intros Hout. unfold process_button.
  assert (Hnone : BUTTON_MAPPING !! button = None).
  { unfold BUTTON_MAPPING.
    rewrite !lookup_insert_ne by lia. apply lookup_empty. }
  by rewrite Hnone.
Qed.

(** ** Further properties of whole runs *)

Lemma dispatch_returns event w : contained → returns (dispatch event) w.
Proof.
  intros Hc. destruct event; simpl.
  - apply returns_mret.
  - by apply process_hat_returns.
  - by apply process_axis_returns.
  - by apply process_button_returns.
  - by apply process_button_returns.
  - apply returns_mret.
Qed.

(** X8.  When the injector raises nothing but what the [except] clauses of
    [press_key] and [release_key] catch (instances of [Exception], raised
    under pynput; an injector that never raises is a case of it), no
    exception leaves the event loop: every batch of events is processed to
    its end, however many injector calls fail on the way. *)
Theorem process_events_returns events w :
  contained → returns (process_events events) w.
Proof.
  intros Hc. apply for_each_returns. intros event w'.
  by apply dispatch_returns.
Qed.

(** ** The hat's injector calls *)

Lemma injected_after_release_each (X : gset string) ks w :
  NoDup ks →
  "enter" ∉ ks →
  (∀ k, k ∈ ks → k ∈ X ↔ k ∈ pressed_keys w) →
  returns (for_each release_key ks) w →
  injected (after (for_each release_key ks) w) =
  injected w ++ (release_call <$> filter (λ k, k ∈ X) ks).
Proof.
  revert w. induction ks as [|k ks IH]; intros w Hnd Hne HX Hret; simpl in *.
  - by rewrite after_mret, app_nil_r.
  - apply returns_seq in Hret as [Hk Hks].
    apply NoDup_cons in Hnd as [Hk_fresh Hnd].
    assert (Hk_enter : k ≠ "enter").
    { intros ->. apply Hne. left. }
    assert (Hne' : "enter" ∉ ks).
    { intros Hin. apply Hne. by right. }
    rewrite after_seq, IH; try done.
    + rewrite injected_after_release, filter_cons, <- app_assoc.
      f_equal. specialize (HX k ltac:(left)).
      repeat case_decide; try done; naive_solver.
    + intros k' Hk'. rewrite pressed_after_release, decide_False by done.
      rewrite HX by (by right). rewrite elem_of_difference, elem_of_singleton.
      split; [|tauto]. intros Hin. split; [done|]. by intros ->.
Qed.

Lemma press_key_effect k w :
  k ≠ "enter" → k ∉ pressed_keys w →
  pressed_keys (after (press_key k) w) = {[k]} ∪ pressed_keys w ∧
  injected (after (press_key k) w) = injected w ++ [press_call k].
Proof.
  intros Hk Hout. rewrite pressed_after_press, injected_after_press.
  rewrite !decide_False; [done|tauto|done].
Qed.

(** One of the two choices of lines 150-158. *)
Lemma hat_choice (P Q : Prop) `{!Decision P, !Decision Q} k1 k2 w :
  k1 ≠ "enter" → k2 ≠ "enter" →
  k1 ∉ pressed_keys w → k2 ∉ pressed_keys w →
  let m := if decide P then press_key k1
           else if decide Q then press_key k2 else mret tt in
  let ks := if decide P then [k1] else if decide Q then [k2] else [] in
  pressed_keys (after m w) = list_to_set ks ∪ pressed_keys w ∧
  injected (after m w) = injected w ++ (press_call <$> ks).
Proof.
  intros Hk1 Hk2 Hout1 Hout2. simpl.
  destruct (decide P); [|destruct (decide Q)]; simpl.
  - destruct (press_key_effect k1 w Hk1 Hout1) as [-> ->].
    split; [|done]. by rewrite (right_id_L ∅ (∪)).
  - destruct (press_key_effect k2 w Hk2 Hout2) as [-> ->].
    split; [|done]. by rewrite (right_id_L ∅ (∪)).
  - rewrite after_mret, app_nil_r. split; [|done].
    by rewrite (left_id_L ∅ (∪)).
Qed.

(** X3.  What [process_hat] does when it returns, in full: the calls it adds
    are the releases of those of 'w', 's', 'a', 'd' that were held, in that
    order, followed by the presses of the keys the reading names, the
    vertical one first; [pressed_keys] afterwards is the set before without
    the four directional keys, plus the keys the reading names.  So a hat
    event that repeats the reading releases and presses its keys again. *)
Theorem process_hat_trace x y w :
  returns (process_hat (x, y)) w →
  let w' := after (process_hat (x, y)) w in
  pressed_keys w' =
    (pressed_keys w ∖ {["w"; "s"; "a"; "d"]}) ∪ list_to_set (hat_presses x y) ∧
  injected w' =
    injected w ++
    (release_call <$> filter (λ k, k ∈ pressed_keys w) ["w"; "s"; "a"; "d"]) ++
    (press_call <$> hat_presses x y).
Proof.
  unfold process_hat, hat_presses. intros Hret. cbv zeta.
  apply returns_seq in Hret as [Hreset Hret].
  apply returns_seq in Hret as [Hvert Hhoriz].
  rewrite !after_seq by done.
  assert (Hnd : NoDup ["w"; "s"; "a"; "d"]).
  { compute_done. }
  assert (Hne : "enter" ∉ ["w"; "s"; "a"; "d"]).
  { compute_done. }
  pose proof (pressed_after_release_all ["w"; "s"; "a"; "d"] w Hne Hreset)
    as Hclear.
  pose proof (injected_after_release_each (pressed_keys w)
                ["w"; "s"; "a"; "d"] w Hnd Hne ltac:(done) Hreset) as Hlog.
  set (w1 := after (for_each release_key ["w"; "s"; "a"; "d"]) w) in *.
  clearbody w1. clear Hreset Hvert Hhoriz.
  assert (Hnone : ∀ k, k ∈ ["w"; "s"; "a"; "d"] → k ∉ pressed_keys w1).
  { intros k Hk. rewrite Hclear, elem_of_difference, elem_of_list_to_set.
    tauto. }
  destruct (hat_choice (y = 1%Z) (y = (-1)%Z) "w" "s" w1) as [Hset2 Hlog2];
    try done; try (apply Hnone; compute_done).
  simpl in Hset2, Hlog2.
  set (vertical := if decide (y = 1%Z) then ["w"]
                   else if decide (y = (-1)%Z) then ["s"] else []) in *.
  assert (Hvertical : ∀ k, k ∈ vertical → k = "w" ∨ k = "s").
  { intros k. unfold vertical. repeat case_decide; set_solver. }
  set (w2 := after (if decide (y = 1%Z) then press_key "w"
                    else if decide (y = (-1)%Z) then press_key "s"
                    else mret tt) w1) in *.
  clearbody w2 vertical.
  assert (Hnone2 : ∀ k, k ∈ ["a"; "d"] → k ∉ pressed_keys w2).
  { intros k Hk. rewrite Hset2, elem_of_union, elem_of_list_to_set.
    intros [Hin|Hin].
    - apply Hvertical in Hin. set_solver.
    - revert Hin. apply Hnone. set_solver. }
  destruct (hat_choice (x = (-1)%Z) (x = 1%Z) "a" "d" w2) as [Hset3 Hlog3];
    try done; try (apply Hnone2; compute_done).
  simpl in Hset3, Hlog3. rewrite Hset3, Hlog3, Hset2, Hlog2, Hclear, Hlog.
  set (horizontal := if decide (x = (-1)%Z) then ["a"]
                     else if decide (x = 1%Z) then ["d"] else []).
  clearbody horizontal. split.
  - rewrite list_to_set_app_L. simpl. set_solver.
  - by rewrite fmap_app, <- !app_assoc.
Qed.

(** ** The injector log mirrors the key set *)

Lemma replay_app key held log1 log2 :
  replay key held (log1 ++ log2) =
  replay key held log1 ≫= λ held', replay key held' log2.
Proof.
  revert held. induction log1 as [|c log1 IH]; intros held; simpl; [done|].
  repeat case_decide; destruct held; simpl; auto.
Qed.

Lemma replay_other key held c :
  c ≠ press_call key → c ≠ release_call key →
  replay key held [c] = Some held.
Proof. intros Hp Hr. simpl. by rewrite !decide_False. Qed.

(** The calls of two different keys differ, and so do the press and the
    release of one key. *)
Lemma calls_apart key key' :
  key ∈ ["w"; "s"; "a"; "d"] →
  key' ∈ ["w"; "s"; "a"; "d"; "enter"] →
  press_call key ≠ release_call key ∧
  (key' ≠ key →
   press_call key' ≠ press_call key ∧
   press_call key' ≠ release_call key ∧
   release_call key' ≠ press_call key ∧
   release_call key' ≠ release_call key).
Proof.
  unfold press_call, release_call, press_target, release_target.
  rewrite !elem_of_cons, !elem_of_nil.
  intros [->|[->|[->|[->|[]]]]] [->|[->|[->|[->|[->|[]]]]]];
    case USE_PYNPUT; simpl; (split; [done|]); intros Hne;
    done || (repeat split; done).
Qed.

Lemma press_key_keeps_mirror key :
  key ∈ ["w"; "s"; "a"; "d"; "enter"] →
  preserves log_mirrors_keys (press_key key).
Proof.
  intros Hkey w Hw k Hk.
  destruct (calls_apart k key Hk Hkey) as [Hpr Hother].
  rewrite injected_after_press, pressed_after_press, replay_app, (Hw k Hk).
  simpl. destruct (decide (key = k)) as [->|Hne].
  - assert (Hk_enter : k ≠ "enter").
    { intros ->. revert Hk. rewrite !elem_of_cons, elem_of_nil. naive_solver. }
    rewrite (decide_False (P := k = "enter")) by done.
    destruct (decide (k ∈ pressed_keys w)) as [Hin|Hout].
    + rewrite decide_True by done. simpl.
      rewrite !bool_decide_eq_true_2; [done|set_solver|done].
    + rewrite decide_False by tauto. simpl.
      rewrite (bool_decide_eq_false_2 (k ∈ pressed_keys w)) by done.
      rewrite decide_True by done.
      by rewrite bool_decide_eq_true_2 by set_solver.
  - destruct (Hother Hne) as (H1 & H2 & H3 & H4).
    assert (Hsame : bool_decide
        (k ∈ (if decide (key = "enter") then pressed_keys w
              else {[key]} ∪ pressed_keys w)) =
      bool_decide (k ∈ pressed_keys w)).
    { apply bool_decide_ext. case_decide; [done|]. set_solver. }
    rewrite Hsame. clear Hsame.
    destruct (decide (key ≠ "enter" ∧ key ∈ pressed_keys w)); simpl; [done|].
    by rewrite !decide_False.
Qed.

Lemma release_key_keeps_mirror key :
  key ∈ ["w"; "s"; "a"; "d"; "enter"] →
  preserves log_mirrors_keys (release_key key).
Proof.
  intros Hkey w Hw k Hk.
  destruct (calls_apart k key Hk Hkey) as [Hpr Hother].
  rewrite injected_after_release, pressed_after_release, replay_app, (Hw k Hk).
  simpl. destruct (decide (key = k)) as [->|Hne].
  - assert (Hk_enter : k ≠ "enter").
    { intros ->. revert Hk. rewrite !elem_of_cons, elem_of_nil. naive_solver. }
    rewrite (decide_False (P := k = "enter")) by done.
    destruct (decide (k ∈ pressed_keys w)) as [Hin|Hout].
    + rewrite decide_True by tauto. simpl.
      rewrite (bool_decide_eq_true_2 (k ∈ pressed_keys w)) by done.
      rewrite decide_False by (by intros Heq; apply Hpr).
      rewrite decide_True by done.
      by rewrite bool_decide_eq_false_2 by set_solver.
    + rewrite decide_False by tauto. simpl.
      rewrite !bool_decide_eq_false_2; [done|set_solver|done].
  - destruct (Hother Hne) as (H1 & H2 & H3 & H4).
    assert (Hsame : bool_decide
        (k ∈ (if decide (key = "enter") then pressed_keys w
              else pressed_keys w ∖ {[key]})) =
      bool_decide (k ∈ pressed_keys w)).
    { apply bool_decide_ext. case_decide; [done|]. set_solver. }
    rewrite Hsame. clear Hsame.
    destruct (decide (key = "enter" ∨ key ∈ pressed_keys w)); simpl; [|done].
    by rewrite !decide_False.
Qed.

(** X9.  Whatever events are processed from the initial state, and wherever
    an exception may stop the run, the injector log and [pressed_keys] agree
    on every directional key: in the log the presses and releases of the key
    alternate, starting with a press (never a second press of a held key,
    never a release of a key that is not held), and the key is in
    [pressed_keys] exactly when its last call in the log is a press. *)
Theorem log_mirrors_keys_always events :
  log_mirrors_keys (after (process_events events) initial_world).
Proof.
  assert (Hrun : preserves log_mirrors_keys (process_events events)).
  { apply (@process_events_steps _ (preserves_preorder _)
             ["w"; "s"; "a"; "d"; "enter"]); [| |done].
    - apply press_key_keeps_mirror.
    - apply release_key_keeps_mirror. }
  apply (Hrun initial_world). intros k Hk. simpl.
  by rewrite bool_decide_eq_false_2 by apply not_elem_of_empty.
Qed.

(** ** Shutdown and output *)

(** Under [contained] the event loop ends in one of two ways: a batch with a
    [QUIT] was processed, or the batches ran out and the next poll raised. *)
Lemma poll_loop_outcome batches ending w :
  contained →
  (poll_loop batches ending w).1 = Returned tt ∨
  ((poll_loop batches ending w).1 = Raised ending ∧
   existsb (existsb is_quit) batches = false).
Proof.
  intros Hc. revert w.
  induction batches as [|events rest IH]; intros w; simpl.
  - by right.
  - assert (Hevents : returns (process_events events) w).
    { apply for_each_returns. intros event w'. by apply dispatch_returns. }
    destruct Hevents as [[] Hevents]. revert Hevents.
    unfold mbind, Py_bind.
    destruct (process_events events w) as [[[]|e] w1]; simpl; [|done].
    intros _. destruct (existsb is_quit events); simpl; [by left|apply IH].
Qed.

(** The [finally] block of lines 237-243 on a state without 'enter'. *)
Lemma shutdown_cleanup set_order w :
  contained →
  (∀ X, set_order X ≡ₚ elements X) →
  "enter" ∉ pressed_keys w →
  ∃ w', (drain set_order;; print "Joystick listener stopped.") w =
          (Returned tt, w') ∧
        pressed_keys w' = ∅ ∧
        last (stdout w') = Some "Joystick listener stopped.".
Proof.
  intros Hc Horder Henter.
  pose proof (drain_returns set_order w Hc) as Hret.
  pose proof (drain_clears set_order w Horder Henter Hret) as Hclear.
  destruct Hret as [[] Hret]. revert Hret Hclear.
  unfold after, mbind, Py_bind, print.
  destruct (drain set_order w) as [[[]|e] w2]; simpl; [|done].
  intros _ Hclear. eexists. split; [done|]. simpl.
  split; [done|]. apply last_snoc.
Qed.

(** X10.  When the injector raises nothing but what the [except] clauses of
    [press_key] and [release_key] catch (instances of [Exception], under
    pynput), the [finally] block of [main] does its work however the event
    loop ends, by a [QUIT], by Ctrl+C while the loop is polling, or by any
    other exception raised by the poll: no key is held at the end and the
    last line printed is "Joystick listener stopped.".  After a [QUIT] or
    such a Ctrl+C, which line 235 catches, [main] returns. *)
Theorem main_shuts_down_clean set_order batches ending :
  contained →
  (∀ X, set_order X ≡ₚ elements X) →
  let w' := after (main set_order batches ending) initial_world in
  pressed_keys w' = ∅ ∧
  last (stdout w') = Some "Joystick listener stopped." ∧
  (existsb (existsb is_quit) batches = true ∨
   isinstance_KeyboardInterrupt ending = true →
   returns (main set_order batches ending) initial_world).
Proof.
  intros Hc Horder.
  set (w0 := mkWorld ∅ [] ["Starting joystick listener...";
    "Move your joystick/use buttons to control the game.";
    "Press Ctrl+C to stop." +:+ newline]).
  unfold returns, after.
  change (main set_order batches ending initial_world)
    with (try_finally
            (try_except isinstance_KeyboardInterrupt
               (poll_loop batches ending)
               (λ _, print (newline +:+ "Stopping...")))
            (drain set_order;; print "Joystick listener stopped.") w0).
  pose proof (poll_loop_never_adds_enter batches ending w0) as Hinv.
  pose proof (poll_loop_outcome batches ending w0 Hc) as Hend.
  unfold after, try_finally, try_except in *.
  destruct (poll_loop batches ending w0) as [r w1]. simpl in Hinv, Hend.
  specialize (Hinv (not_elem_of_empty "enter")).
  destruct r as [[]|e].
  - destruct (shutdown_cleanup set_order w1 Hc Horder Hinv)
      as (w2 & -> & Hset & Hlast).
    split; [exact Hset|]. split; [exact Hlast|]. intros _. by exists tt.
  - destruct Hend as [Hend|[Hend Hquit]]; [done|].
    injection Hend as ->.
    destruct (isinstance_KeyboardInterrupt ending) eqn:Hclass.
    + change (print (newline +:+ "Stopping...") w1)
        with (Returned tt,
              mkWorld (pressed_keys w1) (injected w1)
                (stdout w1 ++ [newline +:+ "Stopping..."])).
      cbv beta iota.
      destruct (shutdown_cleanup set_order
                  (mkWorld (pressed_keys w1) (injected w1)
                     (stdout w1 ++ [newline +:+ "Stopping..."]))
                  Hc Horder Hinv) as (w2 & -> & Hset & Hlast).
      split; [exact Hset|]. split; [exact Hlast|]. intros _. by exists tt.
    + destruct (shutdown_cleanup set_order w1 Hc Horder Hinv)
        as (w2 & -> & Hset & Hlast).
      split; [exact Hset|]. split; [exact Hlast|].
      intros [Hq|Hk]; [by rewrite Hquit in Hq|done].
Qed.

Lemma press_key_quiet k :
  (∀ history c, injector history c = None) →
  steps (λ w w', stdout w' = stdout w) (press_key k).
Proof.
  intros Hnone w. run_py.
  repeat (case_decide; simpl; try done).
  all: case USE_PYNPUT; simpl; by rewrite Hnone.
Qed.

Lemma release_key_quiet k :
  (∀ history c, injector history c = None) →
  steps (λ w w', stdout w' = stdout w) (release_key k).
Proof.
  intros Hnone w. run_py.
  repeat (case_decide; simpl; try done).
  all: case USE_PYNPUT; simpl; by rewrite Hnone.
Qed.

(** X12.  The translators print nothing of their own: when no injector call
    raises, a run of events leaves the output as it was. *)
Theorem process_events_quiet events w :
  (∀ history c, injector history c = None) →
  stdout (after (process_events events) w) = stdout w.
Proof.
  intros Hnone.
  assert (HR : PreOrder (λ w w' : World, stdout w' = stdout w)).
  { split; [done|]. intros w1 w2 w3 H12 H23. by rewrite H23. }
  apply (@process_events_steps _ HR ["w"; "s"; "a"; "d"; "enter"]); [| |done].
  - intros k _. by apply press_key_quiet.
  - intros k _. by apply release_key_quiet.
Qed.

(** ** The key set as a function of the events *)

Lemma pressed_after_press_release a b w :
  a ≠ "enter" → b ≠ "enter" →
  returns (press_key a;; release_key b) w →
  pressed_keys (after (press_key a;; release_key b) w) =
  ({[a]} ∪ pressed_keys w) ∖ {[b]}.
Proof.
  intros Ha Hb Hret. apply returns_seq in Hret as [H1 H2].
  rewrite after_seq by done.
  by rewrite pressed_after_release, pressed_after_press, !decide_False.
Qed.

Lemma pressed_after_release_release a b w :
  a ≠ "enter" → b ≠ "enter" →
  returns (release_key a;; release_key b) w →
  pressed_keys (after (release_key a;; release_key b) w) =
  pressed_keys w ∖ {[a]} ∖ {[b]}.
Proof.
  intros Ha Hb Hret. apply returns_seq in Hret as [H1 H2].
  rewrite after_seq by done.
  by rewrite !pressed_after_release, !decide_False.
Qed.

Lemma process_axis_key_step axis v w :
  returns (process_axis axis v) w →
  pressed_keys (after (process_axis axis v) w) =
  key_step (JOYAXISMOTION axis v) (pressed_keys w).
Proof.
  unfold key_step, axis_keys.
  destruct (decide (axis = 1%Z)) as [->|Hvert];
    [|destruct (decide (axis = 0%Z)) as [->|Hhoriz]].
  - destruct (PrimFloat.ltb v (PrimFloat.opp deadzone)) eqn:Hlo;
      [|destruct (PrimFloat.ltb deadzone v) eqn:Hhi].
    + rewrite process_axis_up by done.
      by apply pressed_after_press_release.
    + rewrite process_axis_down by done.
      by apply pressed_after_press_release.
    + rewrite process_axis_neutral by done.
      by apply pressed_after_release_release.
  - destruct (PrimFloat.ltb v (PrimFloat.opp deadzone)) eqn:Hlo;
      [|destruct (PrimFloat.ltb deadzone v) eqn:Hhi].
    + rewrite process_axis_left by done.
      by apply pressed_after_press_release.
    + rewrite process_axis_right by done.
      by apply pressed_after_press_release.
    + rewrite process_axis_centre by done.
      by apply pressed_after_release_release.
  - intros _. unfold after. by rewrite process_axis_ignored.
Qed.

Lemma process_button_key_step button w :
  (returns (process_button button true) w →
   pressed_keys (after (process_button button true) w) =
   key_step (JOYBUTTONDOWN button) (pressed_keys w)) ∧
  (returns (process_button button false) w →
   pressed_keys (after (process_button button false) w) =
   key_step (JOYBUTTONUP button) (pressed_keys w)).
Proof.
  unfold process_button, key_step.
  destruct (BUTTON_MAPPING !! button) as [key|]; [|done].
  destruct (decide (key = "enter")) as [->|Hkey]; split.
  - intros Hret. apply returns_seq in Hret as [H1 H2].
    rewrite after_seq by done.
    by rewrite pressed_after_release, pressed_after_press.
  - by rewrite decide_False by (by intros H).
  - intros _. by rewrite pressed_after_press, decide_False.
  - intros _. by rewrite decide_True, pressed_after_release, decide_False.
Qed.

Lemma process_hat_keys x y w :
  returns (process_hat (x, y)) w →
  pressed_keys (after (process_hat (x, y)) w) =
  (pressed_keys w ∖ {["w"; "s"; "a"; "d"]}) ∪ list_to_set (hat_presses x y).
Proof.
  unfold process_hat, hat_presses. intros Hret.
  apply returns_seq in Hret as [Hreset Hret].
  apply returns_seq in Hret as [Hvert Hhoriz].
  rewrite !after_seq by done.
  assert (Hne : "enter" ∉ ["w"; "s"; "a"; "d"]) by compute_done.
  pose proof (pressed_after_release_all ["w"; "s"; "a"; "d"] w Hne Hreset)
    as Hclear.
  set (w1 := after (for_each release_key ["w"; "s"; "a"; "d"]) w) in *.
  clearbody w1. clear Hreset Hvert Hhoriz.
  repeat case_decide; subst;
    rewrite ?after_mret, ?pressed_after_press, ?decide_False by done;
    rewrite Hclear; clear Hclear; simpl; set_solver.
Qed.

Lemma dispatch_key_step event w :
  returns (dispatch event) w →
  pressed_keys (after (dispatch event) w) = key_step event (pressed_keys w).
Proof.
  destruct event as [|[x y]|axis v|button|button|]; simpl; try done.
  - apply process_hat_keys.
  - apply process_axis_key_step.
  - apply process_button_key_step.
  - apply process_button_key_step.
Qed.

(** X13.  When no exception leaves a run of events, the key set at its end
    is a function of the events and of the key set at its start alone: it
    is [key_step] folded over the events.  The outcome of the injector calls
    has no part in it. *)
Theorem pressed_keys_follow_events events w :
  returns (process_events events) w →
  pressed_keys (after (process_events events) w) =
  foldl (λ held event, key_step event held) (pressed_keys w) events.
Proof.
  revert w. induction events as [|event events IH]; intros w Hret; simpl.
  - done.
  - apply returns_seq in Hret as [Hevent Hrest].
    unfold process_events in *. simpl.
    by rewrite after_seq, IH, dispatch_key_step.
Qed.

End Mapper.

(** ** The theorems at concrete inputs *)

(** C1: with pynput and an injector that raises, pressing 'w' from the
    initial state leaves 'w' held. *)
Lemma press_key_failure_keeps_key_witness :
  let w' := after (press_key true always_raises "w") initial_world in
  pressed_keys w' = {["w"]} ∪ ∅ ∧
  "w" ∈ pressed_keys w' ∧
  injected w' = [keyboard_press Key_up] ∧
  press_key true always_raises "w" initial_world = (Returned tt, w') ∧
  stdout w' = ["Error pressing key w: boom"].
Proof.
  destruct (press_key_failure_keeps_key true always_raises "w"
              initial_world (mkExn Exception "boom"))
    as (Hset & Hin & Hlog & Hout & _).
  - right. apply not_elem_of_empty.
  - reflexivity.
  - destruct (Hout eq_refl eq_refl) as [Hret Hprint].
    exact (conj Hset (conj (Hin ltac:(discriminate))
             (conj Hlog (conj Hret Hprint)))).
Defined.

(** C1 as stated fails: the failed press of 'w' is not rolled back. *)
Lemma failed_press_not_rolled_back :
  ¬ failed_press_rolled_back true always_raises "w" initial_world.
Proof.
  unfold failed_press_rolled_back. intros Hclaim.
  destruct Hclaim as [Hout _].
  - right. apply not_elem_of_empty.
  - by eexists.
  - apply Hout. rewrite pressed_after_press. simpl. set_solver.
Qed.

(** C2: releasing 'enter' from the initial state makes one injector call. *)
Lemma release_key_unheld_or_enter_witness :
  injected (after (release_key true never_raises "enter") initial_world) =
    [keyboard_release Key_enter] ∧
  pressed_keys (after (release_key true never_raises "enter") initial_world) =
    ∅.
Proof.
  destruct (release_key_unheld_or_enter true never_raises "enter"
              initial_world) as [_ Henter].
  - apply not_elem_of_empty.
  - exact (Henter eq_refl).
Defined.

(** C2 as stated fails: releasing 'enter', which is not held, is no no-op. *)
Lemma enter_release_not_noop :
  ¬ unheld_release_is_noop true never_raises "enter" initial_world.
Proof.
  unfold unheld_release_is_noop. intros Hclaim.
  specialize (Hclaim (not_elem_of_empty (C := gset string) "enter")).
  apply (f_equal (λ r, injected r.2)) in Hclaim.
  discriminate Hclaim.
Qed.

(** C3: 'w' pressed twice from the initial state. *)
Lemma press_key_twice_witness :
  let w1 := after (press_key true never_raises "w") initial_world in
  let w2 := after (press_key true never_raises "w") w1 in
  "w" ∈ pressed_keys w1 ∧
  press_key true never_raises "w" w1 = (Returned tt, w1) ∧
  w2 = w1 ∧
  injected w1 = [keyboard_press Key_up] ∧
  injected w2 = [keyboard_press Key_up].
Proof.
  destruct (press_key_twice true never_raises "w" initial_world)
    as (Hin & Hnoop & Hsame & Hcount).
  - left.
  - destruct Hcount as [Hone Htwo]; [apply not_elem_of_empty|].
    exact (conj Hin (conj Hnoop (conj Hsame (conj Hone Htwo)))).
Defined.

(** C4: the hat at (1, -1) after the hat at (-1, 1), with an injector that
    raises at every call. *)
Lemma process_hat_held_witness :
  let w := after (process_hat true always_raises (-1, 1)%Z) initial_world in
  let w' := after (process_hat true always_raises (1, -1)%Z) w in
  "s" ∈ pressed_keys w' ∧ "d" ∈ pressed_keys w' ∧
  "w" ∉ pressed_keys w' ∧ ("a" ∉ pressed_keys w').
Proof.
  intros w.
  destruct (process_hat_held true always_raises 1 (-1) w)
    as (Hw & Hs & Ha & Hd & _).
  - by exists tt.
  - split; [by apply Hs|]. split; [by apply Hd|]. split.
    + intros Hin. by apply Hw in Hin.
    + intros Hin. by apply Ha in Hin.
Defined.

(** C5: the stick pushed down (0.5) after it was pushed up. *)
Lemma process_axis_vertical_witness :
  let w := after (process_axis true never_raises 1 (-0.5)%float) initial_world in
  let w' := after (process_axis true never_raises 1 0.5%float) w in
  "s" ∈ pressed_keys w' ∧ ("w" ∉ pressed_keys w').
Proof.
  intros w.
  destruct (process_axis_vertical true never_raises 0.5%float w)
    as (_ & Hdown & _ & _).
  - by exists tt.
  - by apply Hdown.
Defined.

(** C7: button 4 from the initial state. *)
Lemma process_button_confirm_witness :
  injected (after (process_button true never_raises 4 true) initial_world) =
    [keyboard_press Key_enter; keyboard_release Key_enter] ∧
  pressed_keys (after (process_button true never_raises 4 true) initial_world)
    = ∅ ∧
  process_button true never_raises 4 false initial_world =
    (Returned tt, initial_world).
Proof.
  destruct (process_button_confirm true never_raises 4 initial_world)
    as [Hdown Hup].
  - by left.
  - destruct Hdown as [Hlog Hset]; [by exists tt|].
    exact (conj Hlog (conj Hset Hup)).
Defined.

(** C8: the drain after the hat at (1, 1), in the order of [elements]. *)
Lemma drain_releases_all_witness :
  let w := after (process_events true never_raises [JOYHATMOTION (1, 1)%Z])
             initial_world in
  let w' := after (drain true never_raises elements) w in
  pressed_keys w' = ∅ ∧
  length (injected w') = (length (injected w) + 2)%nat ∧
  drain true never_raises elements w' = (Returned tt, w').
Proof.
  intros w.
  destruct (drain_releases_all true never_raises elements w)
    as (Hempty & (new & Hlog & _ & Hlen) & _ & Hagain).
  - done.
  - by exists [JOYHATMOTION (1, 1)%Z].
  - by exists tt.
  - split; [exact Hempty|]. split; [|exact Hagain].
    rewrite Hlog, length_app, Hlen. reflexivity.
Defined.

(** ** The further properties at concrete inputs *)

(** X1: the stick pushed right (0.5) after it was pushed left. *)
Lemma process_axis_horizontal_witness :
  let w := after (process_axis true never_raises 0 (-0.5)%float) initial_world in
  let w' := after (process_axis true never_raises 0 0.5%float) w in
  "d" ∈ pressed_keys w' ∧ ("a" ∉ pressed_keys w').
Proof.
  intros w.
  destruct (process_axis_horizontal true never_raises 0.5%float w)
    as (_ & Hright & _).
  - by exists tt.
  - by apply Hright.
Defined.

(** X2: the stick held up, reported twice. *)
Lemma process_axis_settled_witness :
  let w := after (process_axis true never_raises 1 (-0.5)%float) initial_world in
  process_axis true never_raises 1 (-0.5)%float w = (Returned tt, w).
Proof.
  apply (process_axis_settled true never_raises 1 (-0.5)%float initial_world).
  by exists tt.
Defined.

(** X3: the hat at (1, 0) when 'w' and 'a' are held. *)
Lemma process_hat_trace_witness :
  let w := after (process_hat true never_raises (-1, 1)%Z) initial_world in
  let w' := after (process_hat true never_raises (1, 0)%Z) w in
  pressed_keys w' =
    (pressed_keys w ∖ {["w"; "s"; "a"; "d"]}) ∪ list_to_set ["d"] ∧
  injected w' =
    injected w ++
    [keyboard_release Key_up; keyboard_release Key_left] ++
    [keyboard_press Key_right].
Proof.
  intros w.
  apply (process_hat_trace true never_raises 1 0 w).
  by exists tt.
Defined.

(** X4: button 0 is 'w'. *)
Lemma process_button_directional_witness :
  pressed_keys (after (process_button true always_raises 0 true) initial_world)
    = {["w"]} ∪ ∅ ∧
  pressed_keys (after (process_button true always_raises 0 false) initial_world)
    = ∅ ∖ {["w"]}.
Proof.
  apply (process_button_directional true always_raises 0 "w" initial_world).
  - reflexivity.
  - discriminate.
Defined.

(** X5: button 6. *)
Lemma process_button_unmapped_witness :
  process_button true never_raises 6 true initial_world =
    (Returned tt, initial_world).
Proof.
  apply (process_button_unmapped true never_raises 6 true initial_world).
  right. reflexivity.
Defined.

(** X6: the release of a held 'w' fails. *)
Lemma release_key_failure_drops_key_witness :
  release_key true always_raises "w" (mkWorld {["w"]} [] []) =
    (Returned tt,
     mkWorld ({["w"]} ∖ {["w"]}) [keyboard_release Key_up]
       ["Error releasing key w: boom"]).
Proof.
  assert (Hheld : "w" = "enter" ∨ "w" ∈ pressed_keys (mkWorld {["w"]} [] [])).
  { right. simpl. by apply elem_of_singleton_2. }
  exact (release_key_failure_drops_key true always_raises "w"
           (mkWorld {["w"]} [] []) (mkExn Exception "boom")
           eq_refl Hheld eq_refl eq_refl).
Defined.

(** X7: xdotool cannot be started while 'w' is pressed. *)
Lemma xdotool_failure_escapes_witness :
  press_key false always_raises "w" initial_world =
    (Raised (mkExn Exception "boom"),
     mkWorld ({["w"]} ∪ ∅) [subprocess_run ["xdotool"; "keydown"; "w"]] []).
Proof.
  destruct (xdotool_failure_escapes false always_raises "w" initial_world
              (mkExn Exception "boom")) as [Hpress _].
  - reflexivity.
  - discriminate.
  - exact (Hpress (not_elem_of_empty "w") eq_refl).
Defined.

(** X8: a batch of three events with an injector that always raises. *)
Lemma process_events_returns_witness :
  returns
    (process_events true always_raises
       [JOYHATMOTION (0, 1)%Z; JOYBUTTONDOWN 4; JOYAXISMOTION 0 0.5%float])
    initial_world.
Proof.
  apply (process_events_returns true always_raises).
  intros history c e [= <-]. by split.
Defined.

(** X10: one batch, then Ctrl+C while polling, with an injector whose calls
    all raise an [Exception]. *)
Lemma main_shuts_down_clean_witness :
  let batches := [[JOYHATMOTION (1, 1)%Z; JOYBUTTONDOWN 1]] in
  let ending := mkExn KeyboardInterrupt "" in
  let w' :=
    after (main true always_raises elements batches ending) initial_world in
  pressed_keys w' = ∅ ∧
  last (stdout w') = Some "Joystick listener stopped." ∧
  returns (main true always_raises elements batches ending) initial_world.
Proof.
  intros batches ending.
  destruct (main_shuts_down_clean true always_raises elements batches ending)
    as (Hset & Hlast & Hret).
  - intros history c e [= <-]. by split.
  - done.
  - exact (conj Hset (conj Hlast (Hret (or_intror eq_refl)))).
Defined.

(** X11: 'w' pressed and released from the initial state. *)
Lemma press_then_release_witness :
  let m := press_key true never_raises "w";;
           release_key true never_raises "w" in
  pressed_keys (after m initial_world) = ∅ ∧
  injected (after m initial_world) =
    [keyboard_press Key_up; keyboard_release Key_up].
Proof.
  apply (press_then_release true never_raises "w" initial_world).
  - discriminate.
  - apply not_elem_of_empty.
  - by exists tt.
Defined.

(** X12: a hat event and a confirm button, nothing printed. *)
Lemma process_events_quiet_witness :
  stdout (after (process_events true never_raises
                   [JOYHATMOTION (0, 1)%Z; JOYBUTTONDOWN 4]) initial_world)
    = [].
Proof.
  apply (process_events_quiet true never_raises
           [JOYHATMOTION (0, 1)%Z; JOYBUTTONDOWN 4] initial_world).
  done.
Defined.

(** X13: the key set after a hat, a button and an axis event. *)
Lemma pressed_keys_follow_events_witness :
  let events :=
    [JOYHATMOTION (0, 1)%Z; JOYBUTTONDOWN 3; JOYAXISMOTION 1 0.5%float] in
  pressed_keys (after (process_events true always_raises events) initial_world)
    = foldl (λ held event, key_step event held) ∅ events.
Proof.
  intros events.
  apply (pressed_keys_follow_events true always_raises events initial_world).
  by exists tt.
Defined.
